(** * Dependency ordering of modular model files

    A shallow embedding of [utils/create_dependency_mapping.py]:
    the name resolver [get_model_name_from_filename], the import extractor
    [extract_classes_and_imports], the raw dependency map built by
    [map_dependencies], and the level-peeling [topological_sort] behind
    [find_priority_list].

    Conventions of the embedding.
    - Python [str] is [string]; the [str] methods the module calls are
      transcribed one by one in the first part of the file.
    - A Python [set] of strings is a [gset string], a [dict] read only by key
      is a [gmap]; the [defaultdict] built by [map_dependencies], whose
      insertion order drives a loop, is an association list.
    - Iterating a Python [set] yields its elements in an order the language
      does not fix.  The development is parametric in that order
      ([set_iter]), so every statement holds whatever order the runtime picks.
    - Exceptions and the unbounded [while] loop are explicit in [outcome]. *)

From Stdlib Require Import Ascii.
From stdpp Require Import gmap strings list fin_maps relations.

Open Scope string_scope.

(** ** Outcomes of a call *)

Inductive exn : Type :=
| ValueError (msg : string)
| IndexError
| KeyError (key : string)
| ParseFailure (file_path : string).

(** [OutOfFuel] is what a loop bounded by a step budget answers when the
    budget is used up; a call that answers [OutOfFuel] for every budget is a
    call that does not terminate. *)
Inductive outcome (A : Type) : Type :=
| Return (a : A)
| Raise (e : exn)
| OutOfFuel.

Arguments Return {A} a.
Arguments Raise {A} e.
Arguments OutOfFuel {A}.

Definition bind {A B : Type} (m : outcome A) (k : A → outcome B) : outcome B :=
  match m with
  | Return a => k a
  | Raise e => Raise e
  | OutOfFuel => OutOfFuel
  end.

Notation "x ←! m ; k" := (bind m (λ x, k))
  (at level 20, m at level 100, k at level 200, right associativity,
   format "x  ←!  m ;  '/' k").

(** A comprehension whose element expression may raise: the first exception
    met, in iteration order, ends it. *)
Fixpoint traverse {A B : Type} (f : A → outcome B) (l : list A) : outcome (list B) :=
  match l with
  | [] => Return []
  | x :: l' => y ←! f x; ys ←! traverse f l'; Return (y :: ys)
  end.

(** ** The [str] methods used by the module *)

(** [s[i:]] and [s[:i]] for [0 <= i]. *)
Fixpoint slice_from (i : nat) (s : string) : string :=
  match i, s with
  | 0, _ => s
  | S _, EmptyString => EmptyString
  | S i', String _ s' => slice_from i' s'
  end.

Fixpoint slice_to (i : nat) (s : string) : string :=
  match i, s with
  | 0, _ => EmptyString
  | S _, EmptyString => EmptyString
  | S i', String c s' => String c (slice_to i' s')
  end.

(** [s[:-k]] for [0 < k]: everything but the last [k] characters, the empty
    string when [s] is shorter than [k]. *)
Definition slice_to_neg (k : nat) (s : string) : string :=
  slice_to (String.length s - k) s.

(** [s.startswith(prefix)]. *)
Definition str_startswith (s prefix : string) : bool := String.prefix prefix s.

(** [s.endswith(suffix)]. *)
Definition str_endswith (s suffix : string) : bool :=
  (String.length suffix <=? String.length s)%nat
  && String.eqb (slice_from (String.length s - String.length suffix) s) suffix.

(** [s.find(sub)]: lowest index where [sub] occurs, [None] for Python's -1. *)
Fixpoint str_find (sub s : string) : option nat :=
  if str_startswith s sub then Some 0
  else match s with
       | EmptyString => None
       | String _ s' => S <$> str_find sub s'
       end.

(** [s.rfind(sub)]: highest index where [sub] occurs. *)
Fixpoint str_rfind (sub s : string) : option nat :=
  match s with
  | EmptyString => if str_startswith s sub then Some 0 else None
  | String _ s' =>
      match str_rfind sub s' with
      | Some i => Some (S i)
      | None => if str_startswith s sub then Some 0 else None
      end
  end.

(** [sub in s]. *)
Definition str_contains (sub s : string) : bool :=
  match str_find sub s with Some _ => true | None => false end.

(** [s.replace(old, new, 1)]: only the leftmost occurrence is replaced. *)
Definition str_replace_first (old new s : string) : string :=
  match str_find old s with
  | Some i => slice_to i s +:+ new +:+ slice_from (i + String.length old) s
  | None => s
  end.

(** [s.replace(old, new)] for a non-empty [old]: occurrences are replaced
    left to right, the search resuming after each one.  Every round consumes
    at least one character, so [String.length s] rounds are enough. *)
Fixpoint str_replace_go (rounds : nat) (old new s : string) : string :=
  match rounds with
  | 0 => s
  | S r =>
      match str_find old s with
      | Some i =>
          slice_to i s +:+ new
            +:+ str_replace_go r old new (slice_from (i + String.length old) s)
      | None => s
      end
  end.

Definition str_replace (old new s : string) : string :=
  str_replace_go (S (String.length s)) old new s.

(** [s.split(sep)] for a non-empty [sep]. *)
Fixpoint str_split_go (rounds : nat) (sep s : string) : list string :=
  match rounds with
  | 0 => [s]
  | S r =>
      match str_find sep s with
      | Some i =>
          slice_to i s :: str_split_go r sep (slice_from (i + String.length sep) s)
      | None => [s]
      end
  end.

Definition str_split (sep s : string) : list string :=
  str_split_go (S (String.length s)) sep s.

(** [s.rsplit(sep, 1)]: at most one split, at the last occurrence of [sep]. *)
Definition str_rsplit1 (sep s : string) : list string :=
  match str_rfind sep s with
  | Some i => [slice_to i s; slice_from (i + String.length sep) s]
  | None => [s]
  end.

(** [l[i]] on a list, for [0 <= i]. *)
Definition list_index {A : Type} (l : list A) (i : nat) : outcome A :=
  match l !! i with
  | Some x => Return x
  | None => Raise IndexError
  end.

(** [l[-1]] on the result of [split], which is never empty. *)
Definition list_last (l : list string) : string := List.last l EmptyString.

(** [os.path.basename] of [posixpath]: what follows the last ['/']. *)
Definition basename (p : string) : string :=
  slice_from (match str_rfind "/" p with Some i => S i | None => 0 end) p.

(** ** NameResolver: [get_model_name_from_filename] *)

Definition FILE_TYPE_PREFIXES : list string :=
  [ "modular_";
    "modeling_";
    "configuration_";
    "tokenization_";
    "processing_";
    "image_processing_";
    "feature_extractor_" ].

(** The token the prefixes are tried on: extension removed, then directory
    components, then every dotted segment but the last. *)
Definition final_token (filename : string) : string :=
  let modified_filename :=
    if str_endswith filename ".py" then slice_to_neg 3 filename else filename in
  let modified_filename := basename modified_filename in
  list_last (str_split "." modified_filename).

Definition not_a_model_file (filename : string) : exn :=
  ValueError ("It looks like `" +:+ filename +:+ "` is not a Transformers model file!").

Definition get_model_name_from_filename (filename : string) : outcome string :=
  let modified_filename := final_token filename in
  match List.find (str_startswith modified_filename) FILE_TYPE_PREFIXES with
  | None => Raise (not_a_model_file filename)
  | Some file_prefix =>
      let model_name := str_replace_first file_prefix "" modified_filename in
      let model_name :=
        if String.eqb file_prefix "image_processing_" && str_endswith model_name "_fast"
        then slice_to_neg 5 model_name
        else model_name in
      Return model_name
  end.

(** ** ImportExtractor: [extract_classes_and_imports] *)

(** The part of a Python syntax tree the extractor looks at.  [Import] is
    [import a, b], [ImportFrom] is [from module import a, b] with [module]
    absent in [from . import a] and the dots of a relative import counted in
    [level], not kept in [module]; every other node kind is [Other] with its
    child nodes.  The [alias] children of an import node are no import nodes
    themselves and are left out. *)
#[warnings="-register-all"]
Inductive ast_node : Type :=
| Import (names : list string)
| ImportFrom (module : option string) (names : list string) (level : nat)
| Other (children : list ast_node).

(** [ast.walk]: the node and all its descendants. *)
Fixpoint walk (node : ast_node) : list ast_node :=
  node :: match node with
          | Other children => List.flat_map walk children
          | _ => []
          end.

(** [isinstance(node, (ast.Import, ast.ImportFrom))]. *)
Definition is_import (node : ast_node) : bool :=
  match node with
  | Import _ | ImportFrom _ _ _ => true
  | Other _ => false
  end.

(** [node.module if isinstance(node, ast.ImportFrom) else None]. *)
Definition module_of (node : ast_node) : option string :=
  match node with
  | ImportFrom module _ _ => module
  | _ => None
  end.

(** [module and (".modeling_" in module or "transformers.models" in module)]:
    [None] and the empty string are falsy. *)
Definition keeps_module (module : option string) : bool :=
  match module with
  | None => false
  | Some m =>
      negb (String.eqb m "")
      && (str_contains ".modeling_" m || str_contains "transformers.models" m)
  end.

Definition visit_node (imports : gset string) (node : ast_node) : gset string :=
  if is_import node then
    let module := module_of node in
    if keeps_module module then imports ∪ {[ default "" module ]} else imports
  else imports.

Definition extract_imports (tree : ast_node) : gset string :=
  foldl visit_node ∅ (walk tree).

(** A Python [dict] from file path to set of module paths, in insertion
    order. *)
Abbreviation rawdict := (list (string * gset string)).

(** [dependencies[file_path].add(module)] on a [defaultdict(set)]: a missing
    key is first inserted, at the end, with an empty set. *)
Fixpoint add_dependency (dependencies : rawdict) (file_path module : string) : rawdict :=
  match dependencies with
  | [] => [(file_path, {[ module ]})]
  | (k, v) :: rest =>
      if decide (k = file_path) then (k, v ∪ {[ module ]}) :: rest
      else (k, v) :: add_dependency rest file_path module
  end.

(** [d[k]] read as an option. *)
Fixpoint rawdict_get (dependencies : rawdict) (k : string) : option (gset string) :=
  match dependencies with
  | [] => None
  | (k', v) :: rest => if decide (k' = k) then Some v else rawdict_get rest k
  end.

(** [remove_leaves] below is the dictionary comprehension of the peel loop;
    [leaf_nodes] its set comprehension. *)
Definition leaf_nodes (graph : gmap string (gset string)) : gset string :=
  dom (filter (λ kv, size kv.2 = 0) graph).

Definition remove_leaves (graph : gmap string (gset string)) (leaves : gset string)
  : gmap string (gset string) :=
  (λ deps, deps ∖ leaves) <$> filter (λ kv, kv.1 ∉ leaves) graph.

Section Resolver.

(** The order in which the runtime iterates a set. *)
Variable set_iter : gset string → list string.
Hypothesis set_iter_perm : ∀ X, set_iter X ≡ₚ elements X.

(** The parser collaborator: the tree [ast.parse] builds from the file at a
    path, [None] when opening or parsing it raises. *)
Variable parse_file : string → option ast_node.

Definition extract_classes_and_imports (file_path : string) : outcome (gset string) :=
  match parse_file file_path with
  | Some tree => Return (extract_imports tree)
  | None => Raise (ParseFailure file_path)
  end.

(** *** [map_dependencies] *)

Fixpoint map_dependencies_loop (py_files : list string) (dependencies : rawdict)
  : outcome rawdict :=
  match py_files with
  | [] => Return dependencies
  | file_path :: rest =>
      class_to_file ←! extract_classes_and_imports file_path;
      map_dependencies_loop rest
        (foldl (λ d module, add_dependency d file_path module)
               dependencies (set_iter class_to_file))
  end.

Definition map_dependencies (py_files : list string) : outcome rawdict :=
  map_dependencies_loop py_files [].

(** *** [topological_sort] *)

(** [node.rsplit("modular_", 1)[1].replace(".py", "")]. *)
Definition node_name_of (node : string) : outcome string :=
  tail ←! list_index (str_rsplit1 "modular_" node) 1;
  Return (str_replace ".py" "" tail).

Definition tracked_nodes (dependencies : rawdict) : outcome (gset string) :=
  names ←! traverse node_name_of (dependencies.*1);
  Return (list_to_set names).

Definition filter_deps (nodes : gset string) (node_name : string)
    (dep_names : gset string) : gset string :=
  filter (λ dep, dep ∈ nodes ∧ dep ≠ node_name) dep_names.

Fixpoint build_loop (nodes : gset string) (items : rawdict)
    (graph : gmap string (gset string)) (name_mapping : gmap string string)
  : outcome (gmap string (gset string) * gmap string string) :=
  match items with
  | [] => Return (graph, name_mapping)
  | (node, deps) :: rest =>
      node_name ←! node_name_of node;
      dep_names ←! traverse get_model_name_from_filename (set_iter deps);
      let dependencies := filter_deps nodes node_name (list_to_set dep_names) in
      build_loop nodes rest
        (<[node_name := dependencies]> graph) (<[node_name := node]> name_mapping)
  end.

(** Lines 46 to 55: the tracked node set, the filtered graph and the
    mapping from node names back to file paths. *)
Definition build_graph (dependencies : rawdict)
  : outcome (gset string * gmap string (gset string) * gmap string string) :=
  nodes ←! tracked_nodes dependencies;
  gm ←! build_loop nodes dependencies ∅ ∅;
  Return (nodes, gm.1, gm.2).

(** The [while len(graph) > 0] loop, with a budget of iterations. *)
Fixpoint peel (fuel : nat) (graph : gmap string (gset string))
    (sorting_list : list string) : outcome (list string) :=
  if decide (0 < size graph) then
    match fuel with
    | 0 => OutOfFuel
    | S fuel' =>
        let leaves := leaf_nodes graph in
        peel fuel' (remove_leaves graph leaves) (sorting_list ++ set_iter leaves)
    end
  else Return sorting_list.

(** [name_mapping[x]]. *)
Definition dict_get (name_mapping : gmap string string) (x : string) : outcome string :=
  match name_mapping !! x with
  | Some v => Return v
  | None => Raise (KeyError x)
  end.

Definition topological_sort (fuel : nat) (dependencies : rawdict)
  : outcome (list string) :=
  ngm ←! build_graph dependencies;
  sorting_list ←! peel fuel ngm.1.2 [];
  traverse (dict_get ngm.2) sorting_list.

(** *** [find_priority_list] *)

Definition find_priority_list (fuel : nat) (py_files : list string)
  : outcome (list string * rawdict) :=
  dependencies ←! map_dependencies py_files;
  ordered_files ←! topological_sort fuel dependencies;
  Return (ordered_files, dependencies).

End Resolver.

(** * Vocabulary of the statements *)

(** Occurrence of a character, the proof-side reading of [c in s]. *)
Fixpoint char_in (c : Ascii.ascii) (s : string) : bool :=
  match s with
  | EmptyString => false
  | String a s' => if decide (a = c) then true else char_in c s'
  end.

(** A directory part is the empty string or ends with a slash. *)
Definition is_dir_part (D : string) : Prop := D = "" ∨ ∃ D', D = D' +:+ "/".

(** The heuristic that tells an internal reference from any other import. *)
Definition internal_reference (m : string) : Prop :=
  str_contains ".modeling_" m = true ∨ str_contains "transformers.models" m = true.


(** The filtered graph read as a relation: [edge graph a b] when [b] is in
    the dependency set recorded for [a]. *)
Definition edge (graph : gmap string (gset string)) (a b : string) : Prop :=
  ∃ deps, graph !! a = Some deps ∧ b ∈ deps.

Definition has_cycle (graph : gmap string (gset string)) : Prop :=
  ∃ a, tc (edge graph) a a.

Definition acyclic (graph : gmap string (gset string)) : Prop :=
  ∀ a, ¬ tc (edge graph) a a.

(** Every dependency is itself a key of the graph. *)
Definition closed (graph : gmap string (gset string)) : Prop :=
  ∀ a b, edge graph a b → b ∈ dom graph.

(** [x] sits at a smaller index than [y] in [l]. *)
Definition precedes (l : list string) (x y : string) : Prop :=
  ∃ i j, l !! i = Some x ∧ l !! j = Some y ∧ i < j.

(** What the peel loop maintains between two iterations, [graph0] being the
    graph it started from, [graph] the current one and [out] the nodes
    emitted so far. *)
Record peel_inv (graph0 graph : gmap string (gset string)) (out : list string) : Prop :=
  { inv_nodup : NoDup out;
    inv_out : ∀ a, a ∈ out ↔ a ∈ dom graph0 ∧ a ∉ dom graph;
    inv_dom : dom graph ⊆ dom graph0;
    inv_deps : ∀ a, a ∈ dom graph →
                 graph !! a = (λ deps, deps ∖ list_to_set out) <$> graph0 !! a;
    inv_order : ∀ a b, a ∈ out → edge graph0 a b → precedes out b a }.

(** The graph at the start of the iteration numbered [k] of the peel loop,
    counting from 0. *)
Fixpoint peel_graph (k : nat) (graph : gmap string (gset string))
  : gmap string (gset string) :=
  match k with
  | 0 => graph
  | S k' => peel_graph k' (remove_leaves graph (leaf_nodes graph))
  end.

(** The dotted packages in front of a module name in import form: the empty
    string or a string that ends with a dot. *)
Definition is_package_part (Q : string) : Prop := Q = "" ∨ ∃ Q', Q = Q' +:+ ".".

(** [occurs_in node tree]: [node] is [tree] itself or one of its
    descendants, which is what [ast.walk] is documented to yield. *)
Inductive occurs_in (node : ast_node) : ast_node → Prop :=
| occurs_here : occurs_in node node
| occurs_below (children : list ast_node) (child : ast_node) :
    child ∈ children → occurs_in node child → occurs_in node (Other children).

(** * Sample inputs

    A small tree of modular files: [a] builds on an untracked model, [b]
    builds on [a] and imports its own configuration through the absolute
    namespace, [c] builds on [a] and [b], [d] has no qualifying import, and
    [p] and [q] build on each other. *)

Definition sample_files (file_path : string) : option ast_node :=
  if decide (file_path = "models/a/modular_a.py") then
    Some (Other [ Import ["os"];
                  ImportFrom (Some "llama.modeling_llama") ["LlamaModel"] 2;
                  ImportFrom (Some "torch") ["nn"] 0 ])
  else if decide (file_path = "models/b/modular_b.py") then
    Some (Other [ ImportFrom (Some "a.modeling_a") ["AModel"] 2;
                  Other [ ImportFrom (Some "transformers.models.b.configuration_b")
                            ["BConfig"] 0 ];
                  ImportFrom None ["utils"] 1 ])
  else if decide (file_path = "models/c/modular_c.py") then
    Some (Other [ ImportFrom (Some "a.modeling_a") ["AModel"] 2;
                  ImportFrom (Some "b.modeling_b") ["BModel"] 2;
                  ImportFrom (Some "a.modeling_a") ["APreTrainedModel"] 2 ])
  else if decide (file_path = "models/d/modular_d.py") then
    Some (Other [ Import ["torch"]; ImportFrom (Some "typing") ["Optional"] 0 ])
  else if decide (file_path = "models/p/modular_p.py") then
    Some (Other [ ImportFrom (Some "q.modeling_q") ["QModel"] 2 ])
  else if decide (file_path = "models/q/modular_q.py") then
    Some (Other [ ImportFrom (Some "p.modeling_p") ["PModel"] 2 ])
  else None.

Definition sample_py_files : list string :=
  [ "models/c/modular_c.py"; "models/a/modular_a.py"; "models/b/modular_b.py" ].

Definition sample_raw : rawdict :=
  [ ("models/c/modular_c.py", {[ "a.modeling_a"; "b.modeling_b" ]});
    ("models/a/modular_a.py", {[ "llama.modeling_llama" ]});
    ("models/b/modular_b.py",
     {[ "a.modeling_a"; "transformers.models.b.configuration_b" ]}) ].

Definition sample_nodes : gset string := {[ "a"; "b"; "c" ]}.

Definition sample_graph : gmap string (gset string) :=
  {[ "a" := ∅; "b" := {[ "a" ]}; "c" := {[ "a"; "b" ]} ]}.

Definition sample_name_mapping : gmap string string :=
  {[ "a" := "models/a/modular_a.py";
     "b" := "models/b/modular_b.py";
     "c" := "models/c/modular_c.py" ]}.

Definition sample_ordered : list string :=
  [ "models/a/modular_a.py"; "models/b/modular_b.py"; "models/c/modular_c.py" ].

Definition cyclic_py_files : list string :=
  [ "models/p/modular_p.py"; "models/q/modular_q.py" ].

Definition cyclic_raw : rawdict :=
  [ ("models/p/modular_p.py", {[ "q.modeling_q" ]});
    ("models/q/modular_q.py", {[ "p.modeling_p" ]}) ].

Definition cyclic_nodes : gset string := {[ "p"; "q" ]}.

Definition cyclic_graph : gmap string (gset string) :=
  {[ "p" := {[ "q" ]}; "q" := {[ "p" ]} ]}.

Definition cyclic_name_mapping : gmap string string :=
  {[ "p" := "models/p/modular_p.py"; "q" := "models/q/modular_q.py" ]}.

(** The tree above with two more files: [modular_e.py] imports from the
    [auto] package, which is no model file, and [modeling_e.py] is a file of
    another kind that has a qualifying import. *)
Definition faulty_files (file_path : string) : option ast_node :=
  if decide (file_path = "models/e/modular_e.py") then
    Some (Other [ ImportFrom (Some "transformers.models.auto") ["AutoModel"] 0 ])
  else if decide (file_path = "models/e/modeling_e.py") then
    Some (Other [ ImportFrom (Some "a.modeling_a") ["AModel"] 2 ])
  else sample_files file_path.

(** * Properties *)

(** Concatenation with a literal on the left is unfolded by [simpl] in the
    proofs below. *)
#[local] Arguments String.append !_ _ / : simpl nomatch.

#[local] Set Warnings "-clear-no-such-hyp".

(** ** Strings *)

Section StringFacts.

Implicit Types (s t sub : string) (c : Ascii.ascii).

Lemma append_empty_r s : s +:+ "" = s.
Proof. induction s as [|a s IH]; simpl; [done | by rewrite IH]. Qed.

Lemma append_assoc s t u : (s +:+ t) +:+ u = s +:+ (t +:+ u).
Proof. induction s as [|a s IH]; simpl; [done | by rewrite IH]. Qed.

Lemma length_append s t :
  String.length (s +:+ t) = String.length s + String.length t.
Proof. induction s as [|a s IH]; simpl; [done | by rewrite IH]. Qed.

Lemma slice_from_append s t : slice_from (String.length s) (s +:+ t) = t.
Proof. induction s as [|a s IH]; simpl; [by destruct t | done]. Qed.

Lemma slice_to_append s t : slice_to (String.length s) (s +:+ t) = s.
Proof. induction s as [|a s IH]; simpl; [done | by rewrite IH]. Qed.

Lemma slice_from_empty i : slice_from i "" = "".
Proof. by destruct i. Qed.

Lemma slice_to_from i s : slice_to i s +:+ slice_from i s = s.
Proof.
  revert s; induction i as [|i IH]; intros [|a s]; simpl; try done.
  by rewrite IH.
Qed.

Lemma slice_to_neg_append s t : slice_to_neg (String.length t) (s +:+ t) = s.
Proof.
  unfold slice_to_neg. rewrite length_append.
  replace (String.length s + String.length t - String.length t)
    with (String.length s) by lia.
  apply slice_to_append.
Qed.

Lemma prefix_refl_append s t : String.prefix s (s +:+ t) = true.
Proof.
  induction s as [|a s IH]; simpl; [by destruct t |].
  by destruct (Ascii.ascii_dec a a).
Qed.

Lemma prefix_cons a sub b s :
  String.prefix (String a sub) (String b s) =
    if Ascii.ascii_dec a b then String.prefix sub s else false.
Proof. done. Qed.

Lemma startswith_append s t : str_startswith (s +:+ t) s = true.
Proof. apply prefix_refl_append. Qed.

Lemma startswith_split s sub :
  str_startswith s sub = true → s = sub +:+ slice_from (String.length sub) s.
Proof.
  unfold str_startswith. revert s.
  induction sub as [|a sub IH]; intros s H; simpl in *; [by destruct s |].
  destruct s as [|b s]; [done |]. simpl in H.
  destruct (Ascii.ascii_dec a b) as [->|]; [|done].
  simpl. f_equal. by apply IH.
Qed.


Lemma str_find_unfold sub s :
  str_find sub s =
    if str_startswith s sub then Some 0
    else match s with
         | EmptyString => None
         | String _ s' => S <$> str_find sub s'
         end.
Proof. by destruct s. Qed.

Lemma str_find_cons_None sub a s :
  str_find sub (String a s) = None →
  str_startswith (String a s) sub = false ∧ str_find sub s = None.
Proof.
  rewrite str_find_unfold.
  destruct (str_startswith (String a s) sub); [done |].
  destruct (str_find sub s); [done | done].
Qed.

Lemma str_find_append sub s : str_find sub (sub +:+ s) = Some 0.
Proof. by rewrite str_find_unfold, startswith_append. Qed.

Lemma str_find_char c s : str_find (String c "") s = None ↔ char_in c s = false.
Proof.
  induction s as [|a s IH].
  - done.
  - rewrite str_find_unfold. unfold str_startswith. simpl.
    destruct (Ascii.ascii_dec c a) as [->|Hne].
    + rewrite decide_True by done. by destruct s.
    + rewrite decide_False by congruence.
      destruct (str_find (String c "") s) eqn:E; simpl.
      * split; [done |]. intros H. by apply IH in H.
      * split; [|done]. intros _. by apply IH.
Qed.

Lemma str_contains_char c s : str_contains (String c "") s = char_in c s.
Proof.
  unfold str_contains. destruct (char_in c s) eqn:E.
  - destruct (str_find (String c "") s) eqn:F; [done |].
    apply str_find_char in F. congruence.
  - apply str_find_char in E. by rewrite E.
Qed.

Lemma char_in_append c s t : char_in c (s +:+ t) = char_in c s || char_in c t.
Proof. induction s as [|a s IH]; simpl; [done |]. by case_decide. Qed.

Lemma char_in_slice_from c i s : char_in c s = false → char_in c (slice_from i s) = false.
Proof.
  revert s; induction i as [|i IH]; intros [|a s]; simpl; try done.
  case_decide; [done |]. apply IH.
Qed.

Lemma str_rfind_cons sub a s :
  str_rfind sub (String a s) =
    match str_rfind sub s with
    | Some i => Some (S i)
    | None => if str_startswith (String a s) sub then Some 0 else None
    end.
Proof. done. Qed.

Lemma str_rfind_None sub s : str_find sub s = None → str_rfind sub s = None.
Proof.
  induction s as [|a s IH].
  - simpl. by destruct (str_startswith "" sub).
  - intros [Hs Hf]%str_find_cons_None. by rewrite str_rfind_cons, (IH Hf), Hs.
Qed.

Lemma str_rfind_append sub s t i :
  str_rfind sub t = Some i → str_rfind sub (s +:+ t) = Some (String.length s + i).
Proof.
  intros H. induction s as [|a s IH]; [done |].
  change (String a s +:+ t) with (String a (s +:+ t)).
  by rewrite str_rfind_cons, IH.
Qed.

(** The three steps of [final_token] leave alone a string that has neither
    a dot nor a slash. *)
Lemma endswith_py_no_dot s : char_in "." s = false → str_endswith s ".py" = false.
Proof.
  intros H. unfold str_endswith. apply andb_false_iff. right.
  apply String.eqb_neq. intros E.
  apply (char_in_slice_from _ (String.length s - String.length ".py")) in H.
  by rewrite E in H.
Qed.

Lemma basename_no_slash s : char_in "/" s = false → basename s = s.
Proof.
  intros H. unfold basename.
  by rewrite (str_rfind_None "/" s) by (by apply str_find_char).
Qed.

Lemma split_no_dot s : char_in "." s = false → list_last (str_split "." s) = s.
Proof.
  intros H. unfold str_split. simpl.
  by rewrite (proj2 (str_find_char "." s) H).
Qed.

Lemma final_token_plain s :
  char_in "." s = false → char_in "/" s = false → final_token s = s.
Proof.
  intros Hd Hs. unfold final_token.
  rewrite endswith_py_no_dot by done.
  rewrite basename_no_slash by done.
  by apply split_no_dot.
Qed.

Lemma endswith_append s suffix : str_endswith (s +:+ suffix) suffix = true.
Proof.
  unfold str_endswith. rewrite length_append.
  apply andb_true_iff; split; [apply Nat.leb_le; lia |].
  replace (String.length s + String.length suffix - String.length suffix)
    with (String.length s) by lia.
  rewrite slice_from_append. apply String.eqb_refl.
Qed.

Lemma endswith_split s suffix :
  str_endswith s suffix = true → s = slice_to_neg (String.length suffix) s +:+ suffix.
Proof.
  unfold str_endswith, slice_to_neg. intros [_ H]%andb_true_iff.
  apply String.eqb_eq in H.
  set (i := String.length s - String.length suffix) in *.
  rewrite <- H. symmetry. apply slice_to_from.
Qed.

End StringFacts.

(** ** NameResolver *)

Section NameResolver.

Implicit Types (filename P S N D : string).

Lemma prefixes_plain P :
  In P FILE_TYPE_PREFIXES → char_in "." P = false ∧ char_in "/" P = false.
Proof.
  unfold FILE_TYPE_PREFIXES. simpl.
  intros H; repeat destruct H as [<- | H]; try done.
Qed.

(** No recognized prefix starts another one, so the scan of the table stops
    at [P] on any token that starts with [P]. *)
Lemma find_prefix P S :
  In P FILE_TYPE_PREFIXES →
  List.find (str_startswith (P +:+ S)) FILE_TYPE_PREFIXES = Some P.
Proof.
  unfold FILE_TYPE_PREFIXES, str_startswith. simpl.
  intros H; repeat destruct H as [<- | H]; try done; simpl;
    by destruct S.
Qed.

Lemma replace_first_prefix P S : str_replace_first P "" (P +:+ S) = S.
Proof.
  unfold str_replace_first. rewrite str_find_append. simpl.
  apply slice_from_append.
Qed.

(** What the resolver answers once the token is known to be [P +:+ S]. *)
Lemma resolve_token filename P S :
  In P FILE_TYPE_PREFIXES →
  final_token filename = P +:+ S →
  get_model_name_from_filename filename =
    Return (if String.eqb P "image_processing_" && str_endswith S "_fast"
            then slice_to_neg 5 S else S).
Proof.
  intros HP Htok. unfold get_model_name_from_filename.
  by rewrite Htok, find_prefix, replace_first_prefix.
Qed.

Lemma resolve_prefixed P S :
  In P FILE_TYPE_PREFIXES →
  char_in "." S = false → char_in "/" S = false →
  get_model_name_from_filename (P +:+ S) =
    Return (if String.eqb P "image_processing_" && str_endswith S "_fast"
            then slice_to_neg 5 S else S).
Proof.
  intros HP Hd Hs. apply resolve_token; [done |].
  destruct (prefixes_plain P HP) as [Hd' Hs'].
  apply final_token_plain; rewrite char_in_append; by apply orb_false_iff.
Qed.

Lemma image_processing_only P :
  In P FILE_TYPE_PREFIXES → P ≠ "image_processing_" →
  String.eqb P "image_processing_" = false.
Proof. intros _ H. by apply String.eqb_neq. Qed.

End NameResolver.

(** ** Node names of [topological_sort] *)

Section NodeNames.

Implicit Types (N D : string).






Lemma basename_dir D N : char_in "/" N = false → basename (D +:+ "/" +:+ N) = N.
Proof.
  intros H. unfold basename.
  rewrite (str_rfind_append _ D _ 0).
  - replace (D +:+ "/" +:+ N) with ((D +:+ "/") +:+ N) by (by rewrite append_assoc).
    replace (S (String.length D + 0)) with (String.length (D +:+ "/"))
      by (rewrite length_append; simpl; lia).
    apply slice_from_append.
  - change ("/" +:+ N) with (String "/" N).
    rewrite str_rfind_cons, (str_rfind_None "/" N) by (by apply str_find_char).
    unfold str_startswith. rewrite prefix_cons.
    destruct (Ascii.ascii_dec "/" "/"); [by destruct N | done].
Qed.


End NodeNames.

(** ** ImportExtractor *)

Section ImportExtractor.

Lemma keeps_module_spec (module : option string) :
  keeps_module module = true ↔
  ∃ m, module = Some m ∧ m ≠ "" ∧ internal_reference m.
Proof.
  unfold keeps_module, internal_reference. destruct module as [m|].
  - rewrite andb_true_iff, negb_true_iff, orb_true_iff, String.eqb_neq.
    split; [intros [? ?]; by exists m | intros (? & [= <-] & ? & ?); done].
  - split; [done | by intros (? & ? & _)].
Qed.

Lemma elem_of_visit_node (imports : gset string) (node : ast_node) (m : string) :
  m ∈ visit_node imports node ↔
  m ∈ imports ∨
  ∃ names level, node = ImportFrom (Some m) names level ∧ m ≠ "" ∧ internal_reference m.
Proof.
  unfold visit_node. destruct node as [names | module names level | children]; simpl.
  - split; [by left | intros [? | (? & ? & ? & _)]; done].
  - destruct (keeps_module module) eqn:K.
    + apply keeps_module_spec in K as (m' & -> & Hne & Hin). simpl.
      rewrite elem_of_union, elem_of_singleton. split.
      * intros [? | ->]; [by left | right; by exists names, level].
      * intros [? | (? & ? & [= <- _ _] & _)]; [by left | by right].
    + split; [by left |]. intros [? | (? & ? & [= -> _ _] & Hne & Hin)]; [done |].
      assert (keeps_module (Some m) = true) as K'
        by (apply keeps_module_spec; by exists m).
      congruence.
  - split; [by left | intros [? | (? & ? & ? & _)]; done].
Qed.

Lemma elem_of_foldl_visit (nodes : list ast_node) (imports : gset string) (m : string) :
  m ∈ foldl visit_node imports nodes ↔
  m ∈ imports ∨
  ∃ names level,
    ImportFrom (Some m) names level ∈ nodes ∧ m ≠ "" ∧ internal_reference m.
Proof.
  revert imports. induction nodes as [|node nodes IH]; intros imports; simpl.
  - split; [by left |]. intros [? | (? & ? & H & _)]; [done |].
    by apply not_elem_of_nil in H.
  - rewrite IH, elem_of_visit_node. split.
    + intros [[? | (names & level & -> & ? & ?)] | (names & level & ? & ? & ?)].
      * by left.
      * right. exists names, level. split; [apply list_elem_of_here | done].
      * right. exists names, level. split; [by apply list_elem_of_further | done].
    + intros [? | (names & level & [<- | ?]%elem_of_cons & ? & ?)].
      * by left; left.
      * left; right. by exists names, level.
      * right. by exists names, level.
Qed.

Lemma walk_child_length (children : list ast_node) (child : ast_node) :
  child ∈ children →
  (length (walk child) ≤ length (List.flat_map walk children))%nat.
Proof.
  induction children as [|c children IH]; [by intros ?%not_elem_of_nil |].
  simpl. rewrite length_app. intros [-> | Hin]%elem_of_cons; [lia |].
  specialize (IH Hin). lia.
Qed.

Lemma elem_of_flat_walk (children : list ast_node) (node : ast_node) :
  node ∈ List.flat_map walk children ↔
  ∃ child, child ∈ children ∧ node ∈ walk child.
Proof.
  rewrite list_elem_of_In, in_flat_map. split.
  - intros (child & Hc & Hn). exists child. by rewrite !list_elem_of_In.
  - intros (child & Hc & Hn). exists child. by rewrite <- !list_elem_of_In.
Qed.

(** [walk] yields the nodes that occur in the tree, and only those. *)
Lemma elem_of_walk (tree node : ast_node) : node ∈ walk tree ↔ occurs_in node tree.
Proof.
  split.
  - remember (length (walk tree)) as k eqn:Hk. revert tree Hk.
    induction k as [k IH] using lt_wf_ind. intros tree -> Hn.
    destruct tree as [names | module names level | children]; simpl in Hn.
    + apply list_elem_of_singleton in Hn as ->. constructor.
    + apply list_elem_of_singleton in Hn as ->. constructor.
    + apply elem_of_cons in Hn as [-> | Hn]; [constructor |].
      apply elem_of_flat_walk in Hn as (child & Hc & Hn).
      apply (occurs_below _ children child Hc).
      apply (IH (length (walk child))); [|done | done].
      pose proof (walk_child_length children child Hc). simpl. lia.
  - intros H. induction H as [|children child Hc _ IH].
    + destruct node; apply list_elem_of_here.
    + simpl. apply list_elem_of_further, elem_of_flat_walk. by exists child.
Qed.

End ImportExtractor.

(** ** The peel loop *)

Section Graph.

Implicit Types (G : gmap string (gset string)) (L : gset string) (a b : string).

Lemma size_pos_nonempty (X : gset string) : X ≠ ∅ → 0 < size X.
Proof.
  intros H. destruct (decide (size X = 0)) as [E | ?]; [|lia].
  apply size_empty_iff in E. by apply leibniz_equiv in E.
Qed.

Lemma elem_of_leaf_nodes G a : a ∈ leaf_nodes G ↔ G !! a = Some ∅.
Proof.
  unfold leaf_nodes. rewrite elem_of_dom. split.
  - intros [d [Hd Hsz]%map_lookup_filter_Some]. simpl in Hsz.
    apply size_empty_iff in Hsz. apply leibniz_equiv in Hsz. by subst.
  - intros H. exists ∅. apply map_lookup_filter_Some. split; [done |].
    reflexivity.
Qed.

Lemma leaf_nodes_dom G : leaf_nodes G ⊆ dom G.
Proof.
  intros a Ha. apply elem_of_leaf_nodes in Ha. apply elem_of_dom. by eexists.
Qed.

Lemma lookup_remove_leaves G L a :
  remove_leaves G L !! a =
    if decide (a ∈ L) then None else (λ deps, deps ∖ L) <$> G !! a.
Proof.
  unfold remove_leaves. rewrite lookup_fmap. case_decide as Ha.
  - rewrite (proj2 (map_lookup_filter_None _ G a)); [done |].
    right. intros d _ Hn. by apply Hn.
  - destruct (G !! a) as [d|] eqn:E.
    + by rewrite (map_lookup_filter_Some_2 _ G a d).
    + rewrite (proj2 (map_lookup_filter_None _ G a)); [done | by left].
Qed.

Lemma dom_remove_leaves G L : dom (remove_leaves G L) = dom G ∖ L.
Proof.
  apply set_eq. intros a.
  rewrite elem_of_difference, !elem_of_dom, lookup_remove_leaves.
  case_decide as Ha.
  - split; [by intros [? ?] | by intros [_ ?]].
  - rewrite fmap_is_Some. split; [done | by intros [? _]].
Qed.

Lemma size_remove_leaves G L :
  L ⊆ dom G → size (remove_leaves G L) = size G - size L.
Proof.
  intros H. rewrite <- !size_dom, dom_remove_leaves. by apply size_difference.
Qed.

Lemma edge_remove_leaves G L a b :
  edge (remove_leaves G L) a b ↔ edge G a b ∧ (a ∉ L) ∧ (b ∉ L).
Proof.
  unfold edge. setoid_rewrite lookup_remove_leaves. split.
  - intros (d' & Hd' & Hb). case_decide as Ha; [done |].
    apply fmap_Some in Hd' as (d & Hd & ->).
    apply elem_of_difference in Hb as [Hb HbL]. split; [by exists d | done].
  - intros ((d & Hd & Hb) & Ha & HbL). exists (d ∖ L).
    rewrite decide_False, Hd by done. split; [done | set_solver].
Qed.

Lemma tc_edge_mono (R R' : relation string) a b :
  (∀ x y, R x y → R' x y) → tc R a b → tc R' a b.
Proof.
  intros HR H. induction H as [x y H | x y z H _ IH].
  - by apply tc_once, HR.
  - eapply tc_l; [by apply HR | done].
Qed.

Lemma acyclic_remove_leaves G L : acyclic G → acyclic (remove_leaves G L).
Proof.
  intros HG a Ha. apply (HG a).
  eapply tc_edge_mono; [|exact Ha]. intros x y H.
  by apply edge_remove_leaves in H as [H _].
Qed.

Lemma closed_remove_leaves G L : closed G → closed (remove_leaves G L).
Proof.
  intros HG a b (Hab & Ha & Hb)%edge_remove_leaves.
  rewrite dom_remove_leaves. apply elem_of_difference. split; [by eapply HG | done].
Qed.

(** A finite set carries an element with no successor inside the set, for
    any relation whose transitive closure is irreflexive.  The conclusion
    is doubly negated because membership in a transitive closure is not
    decided here. *)
Lemma maximal_element (R : relation string) (X : gset string) :
  (∀ a, ¬ tc R a a) →
  X ≠ ∅ →
  ¬ ¬ ∃ m, m ∈ X ∧ ∀ b, b ∈ X → ¬ tc R m b.
Proof.
  intros Hirr. induction X as [|x X Hx IH] using set_ind_L; [done |].
  intros _ Hno.
  destruct (decide (X = ∅)) as [-> | HX].
  - apply Hno. exists x. split; [set_solver |].
    intros b [->%elem_of_singleton | []%elem_of_empty]%elem_of_union. apply Hirr.
  - apply (IH HX). intros (m & Hm & Hmax).
    assert (¬ ¬ (tc R m x ∨ ¬ tc R m x)) as Hem by tauto.
    apply Hem. intros [Hmx | Hmx]; apply Hno.
    + exists x. split; [set_solver |].
      intros b [->%elem_of_singleton | Hb]%elem_of_union; [apply Hirr |].
      intros Hxb. apply (Hmax b Hb). by etrans.
    + exists m. split; [set_solver |].
      intros b [->%elem_of_singleton | Hb]%elem_of_union; [done | by apply Hmax].
Qed.

(** Kahn's observation: a non-empty, closed, cycle-free graph has a node
    with no dependency left. *)
Lemma leaf_exists G : closed G → acyclic G → G ≠ ∅ → leaf_nodes G ≠ ∅.
Proof.
  intros Hcl Hac Hne Hleaf.
  apply (maximal_element (edge G) (dom G) Hac).
  { intros Hd. by apply dom_empty_iff_L in Hd. }
  intros (m & [d Hd]%elem_of_dom & Hmax).
  destruct (decide (d = ∅)) as [-> | Hdne].
  - apply elem_of_leaf_nodes in Hd. set_solver.
  - apply set_choose_L in Hdne as [b Hb].
    assert (edge G m b) as Hmb by (by exists d).
    apply (Hmax b); [by eapply Hcl | by apply tc_once].
Qed.

(** A node with a successor is not a leaf, so the cycle through a node
    survives every removal of leaves. *)
Lemma tc_edge_live (R : relation string) a b :
  tc R a b → (∃ c, R b c) → tc (λ x y, R x y ∧ ∃ z, R y z) a b.
Proof.
  intros H. induction H as [x y H | x y z H Hyz IH]; intros Hc.
  - by apply tc_once.
  - eapply tc_l; [|by apply IH]. split; [done |].
    inversion Hyz; by eexists.
Qed.

Lemma edge_not_leaf G a b : edge G a b → a ∉ leaf_nodes G.
Proof.
  intros (d & Hd & Hb) Ha%elem_of_leaf_nodes. set_solver.
Qed.

Lemma has_cycle_remove_leaves G :
  has_cycle G → has_cycle (remove_leaves G (leaf_nodes G)).
Proof.
  intros [a Ha]. exists a.
  assert (∃ c, edge G a c) as Hc by (inversion Ha; by eexists).
  eapply tc_edge_mono; [|by apply tc_edge_live].
  intros x y [Hxy [z Hyz]]. apply edge_remove_leaves.
  split; [done |]. split; by eapply edge_not_leaf.
Qed.

Lemma has_cycle_nonempty G : has_cycle G → 0 < size G.
Proof.
  intros [a Ha].
  assert (∃ c, edge G a c) as (c & d & Hd & _) by (inversion Ha; by eexists).
  destruct (decide (size G = 0)) as [E | ?]; [|lia].
  apply map_size_empty_iff in E. by rewrite E in Hd.
Qed.

Lemma precedes_app_l (out out' : list string) a b : precedes out a b → precedes (out ++ out') a b.
Proof.
  intros (i & j & Hi & Hj & Hij). exists i, j.
  split_and!; [| |done]; apply lookup_app_l_Some; done.
Qed.

Lemma peel_inv_init G : peel_inv G G [].
Proof.
  split.
  - constructor.
  - intros a. split; [by intros ?%not_elem_of_nil | by intros [? ?]].
  - done.
  - intros a _. destruct (G !! a) as [d|]; [simpl | done].
    f_equal. set_solver.
  - by intros a b ?%not_elem_of_nil.
Qed.

Lemma edge_peel_graph k G a b : edge (peel_graph k G) a b → edge G a b.
Proof.
  revert G. induction k as [|k IH]; intros G; simpl; [done |].
  intros H%IH. by apply edge_remove_leaves in H as [H _].
Qed.

End Graph.

Section Peel.

Variable set_iter : gset string → list string.
Hypothesis set_iter_perm : ∀ X, set_iter X ≡ₚ elements X.

Implicit Types (G : gmap string (gset string)) (out : list string) (a b : string).
Implicit Types (fuel : nat).

#[local] Set Default Proof Using "All".

Lemma elem_of_set_iter (X : gset string) a : a ∈ set_iter X ↔ a ∈ X.
Proof. by rewrite set_iter_perm, elem_of_elements. Qed.

Lemma NoDup_set_iter (X : gset string) : NoDup (set_iter X).
Proof. rewrite set_iter_perm. apply NoDup_elements. Qed.

Lemma list_to_set_set_iter (X : gset string) : list_to_set (set_iter X) = X.
Proof.
  apply set_eq. intros a. by rewrite elem_of_list_to_set, elem_of_set_iter.
Qed.

Lemma set_iter_nil (X : gset string) : set_iter X = [] ↔ X = ∅.
Proof.
  split.
  - intros H. apply set_eq. intros a.
    rewrite <- elem_of_set_iter, H. set_solver.
  - intros ->. apply Permutation_nil_r. by rewrite set_iter_perm, elements_empty.
Qed.

Lemma peel_unfold fuel G out :
  peel set_iter fuel G out =
    if decide (0 < size G) then
      match fuel with
      | 0 => OutOfFuel
      | S fuel' =>
          peel set_iter fuel' (remove_leaves G (leaf_nodes G))
            (out ++ set_iter (leaf_nodes G))
      end
    else Return out.
Proof. by destruct fuel. Qed.

Lemma peel_inv_step G0 G out :
  peel_inv G0 G out →
  peel_inv G0 (remove_leaves G (leaf_nodes G)) (out ++ set_iter (leaf_nodes G)).
Proof.
  intros [Hnd Hout Hdom Hdeps Hord].
  pose proof (leaf_nodes_dom G) as HL.
  split.
  - apply NoDup_app. split_and!; [done | | apply NoDup_set_iter].
    intros a Ha HaL. apply Hout in Ha as [_ Ha].
    apply elem_of_set_iter in HaL. set_solver.
  - intros a. rewrite elem_of_app, elem_of_set_iter, Hout, dom_remove_leaves.
    rewrite elem_of_difference. split.
    + intros [[? ?] | HaL]; [split; [done | by intros [? _]] |].
      split; [set_solver | by intros [_ ?]].
    + intros [Ha0 Hn]. destruct (decide (a ∈ leaf_nodes G)); [by right | left].
      split; [done |]. intros ?. by apply Hn.
  - rewrite dom_remove_leaves. set_solver.
  - intros a. rewrite dom_remove_leaves, elem_of_difference. intros [Ha HaL].
    rewrite lookup_remove_leaves, decide_False, (Hdeps a Ha) by done.
    rewrite <- option_fmap_compose. destruct (G0 !! a) as [d|]; [simpl | done].
    f_equal. rewrite list_to_set_app_L, list_to_set_set_iter. set_solver.
  - intros a b [Ha | HaL]%elem_of_app Hab.
    + by apply precedes_app_l, Hord.
    + apply elem_of_set_iter in HaL.
      assert (b ∈ out) as [i Hi]%list_elem_of_lookup.
      { apply elem_of_leaf_nodes in HaL as HaG.
        destruct Hab as (d & Hd & Hb).
        rewrite (Hdeps a (HL a HaL)), Hd in HaG. simpl in HaG.
        injection HaG as HaG.
        destruct (decide (b ∈ out)) as [? | Hn]; [done |].
        assert (b ∈ d ∖ list_to_set out) as Hb'.
        { apply elem_of_difference. split; [done |]. by rewrite elem_of_list_to_set. }
        rewrite HaG in Hb'. by apply not_elem_of_empty in Hb'. }
      apply elem_of_set_iter, list_elem_of_lookup in HaL as [j Hj].
      exists i, (length out + j). split_and!.
      * by apply lookup_app_l_Some.
      * rewrite lookup_app_r by lia. by replace (length out + j - length out) with j by lia.
      * apply lookup_lt_Some in Hi. lia.
Qed.

Lemma peel_inv_result fuel G0 G out res :
  peel_inv G0 G out → peel set_iter fuel G out = Return res → peel_inv G0 ∅ res.
Proof.
  revert G out. induction fuel as [|fuel IH]; intros G out Hinv;
    rewrite peel_unfold; case_decide as Hsz.
  - done.
  - intros [= <-]. assert (G = ∅) as <-; [|done].
    apply map_size_empty_iff. lia.
  - intros H. eapply IH; [|exact H]. by apply peel_inv_step.
  - intros [= <-]. assert (G = ∅) as <-; [|done].
    apply map_size_empty_iff. lia.
Qed.

(** On a closed cycle-free graph every iteration removes at least one
    node, so [size G] iterations empty the graph. *)
Lemma peel_terminates (fuel : nat) G out :
  closed G → acyclic G → (size G ≤ fuel)%nat → ∃ res, peel set_iter fuel G out = Return res.
Proof.
  revert G out. induction fuel as [|fuel IH]; intros G out Hcl Hac Hsz;
    rewrite peel_unfold; case_decide as Hpos; try lia; try by eexists.
  apply IH.
  - by apply closed_remove_leaves.
  - by apply acyclic_remove_leaves.
  - rewrite size_remove_leaves by apply leaf_nodes_dom.
    assert (leaf_nodes G ≠ ∅) as HL.
    { apply leaf_exists; [done | done |]. intros ->. rewrite map_size_empty in Hpos. lia. }
    apply size_pos_nonempty in HL. lia.
Qed.

Lemma peel_fuel_mono fuel fuel' G out res :
  peel set_iter fuel G out = Return res → (fuel ≤ fuel')%nat →
  peel set_iter fuel' G out = Return res.
Proof.
  revert fuel' G out. induction fuel as [|fuel IH]; intros fuel' G out H Hle;
    rewrite peel_unfold in H; rewrite peel_unfold;
    case_decide as Hpos; try done.
  destruct fuel' as [|fuel']; [lia |]. apply IH; [done | lia].
Qed.

(** With a cycle in the graph the loop condition never becomes false. *)
Lemma peel_diverges fuel G out : has_cycle G → peel set_iter fuel G out = OutOfFuel.
Proof.
  revert G out. induction fuel as [|fuel IH]; intros G out Hcyc;
    rewrite peel_unfold; pose proof (has_cycle_nonempty G Hcyc);
    rewrite decide_True by done; [done |].
  by apply IH, has_cycle_remove_leaves.
Qed.

Lemma peel_Return_acyclic fuel G out res :
  peel set_iter fuel G out = Return res → acyclic G.
Proof.
  intros H a Ha. by rewrite (peel_diverges fuel G out) in H by (by exists a).
Qed.

(** ... and some iteration starts on a non-empty graph without leaves. *)
Lemma peel_stuck G out :
  has_cycle G →
  ∃ k out',
    (∀ fuel, peel set_iter (k + fuel) G out = peel set_iter fuel (peel_graph k G) out')
    ∧ 0 < size (peel_graph k G) ∧ leaf_nodes (peel_graph k G) = ∅.
Proof.
  remember (size G) as n eqn:Hn. revert G out Hn.
  induction n as [n IH] using lt_wf_ind. intros G out -> Hcyc.
  pose proof (has_cycle_nonempty G Hcyc) as Hpos.
  destruct (decide (leaf_nodes G = ∅)) as [HL | HL].
  - by exists 0, out.
  - destruct (IH (size (remove_leaves G (leaf_nodes G)))) with
      (G := remove_leaves G (leaf_nodes G))
      (out := (out ++ set_iter (leaf_nodes G))%list)
      as (k & out' & Hk & Hsz & Hleaf).
    + rewrite size_remove_leaves by apply leaf_nodes_dom.
      apply size_pos_nonempty in HL. lia.
    + done.
    + by apply has_cycle_remove_leaves.
    + exists (S k), out'. split; [|done]. intros fuel.
      change (S k + fuel) with (S (k + fuel)).
      by rewrite peel_unfold, decide_True, Hk by done.
Qed.

Lemma peel_never_raises fuel G out e : peel set_iter fuel G out ≠ Raise e.
Proof.
  revert G out. induction fuel as [|fuel IH]; intros G out;
    rewrite peel_unfold; case_decide; done.
Qed.

End Peel.

(** ** Outcomes and comprehensions *)

Lemma bind_Return {A B : Type} (m : outcome A) (k : A → outcome B) (r : B) :
  bind m k = Return r ↔ ∃ a, m = Return a ∧ k a = Return r.
Proof.
  destruct m as [a | e |]; simpl.
  - split; [by exists a | by intros (? & [= <-] & ?)].
  - split; [done | by intros (? & ? & _)].
  - split; [done | by intros (? & ? & _)].
Qed.

Section Outcome.

Context {A B : Type}.
Implicit Types (f : A → outcome B).

Lemma traverse_Return f l ys :
  traverse f l = Return ys ↔ Forall2 (λ x y, f x = Return y) l ys.
Proof.
  revert ys. induction l as [|x l IH]; intros ys; simpl.
  - split; [intros [= <-]; constructor | by intros ->%Forall2_nil_inv_l].
  - rewrite bind_Return. split.
    + intros (y & Hy & (ys' & Hys & [= <-])%bind_Return).
      constructor; [done | by apply IH].
    + intros (y & ys' & Hy & Hys & ->)%Forall2_cons_inv_l.
      exists y. split; [done |]. apply bind_Return. exists ys'.
      split; [by apply IH | done].
Qed.

Lemma traverse_total f l :
  (∀ x, x ∈ l → ∃ y, f x = Return y) → ∃ ys, traverse f l = Return ys.
Proof.
  induction l as [|x l IH]; intros H; [by exists [] |].
  destruct (H x) as [y Hy]; [apply list_elem_of_here |].
  destruct IH as [ys Hys]; [intros z Hz; apply H; by apply list_elem_of_further |].
  exists (y :: ys). simpl. by rewrite Hy, Hys.
Qed.

End Outcome.

(** ** The filtered graph *)

Lemma elem_of_filter_deps (nodes : gset string) (a : string) (names : gset string) (b : string) :
  b ∈ filter_deps nodes a names ↔ b ∈ names ∧ b ∈ nodes ∧ b ≠ a.
Proof. unfold filter_deps. rewrite elem_of_filter. tauto. Qed.

Lemma tracked_nodes_spec (d : rawdict) (nodes : gset string) :
  tracked_nodes d = Return nodes →
  ∀ a, a ∈ nodes ↔ ∃ node, node ∈ d.*1 ∧ node_name_of node = Return a.
Proof.
  unfold tracked_nodes. intros (names & Hn%traverse_Return & [= <-])%bind_Return a.
  rewrite elem_of_list_to_set. split.
  - intros [i Hi]%list_elem_of_lookup.
    destruct (Forall2_lookup_r _ _ _ _ _ Hn Hi) as (node & Hnode & Hname).
    exists node. split; [by eapply list_elem_of_lookup_2 | done].
  - intros (node & [i Hi]%list_elem_of_lookup & Hname).
    destruct (Forall2_lookup_l _ _ _ _ _ Hn Hi) as (a' & Ha' & Hname').
    assert (a' = a) as -> by congruence. by eapply list_elem_of_lookup_2.
Qed.

Section Build.

Variable set_iter : gset string → list string.
Hypothesis set_iter_perm : ∀ X, set_iter X ≡ₚ elements X.

Implicit Types (G : gmap string (gset string)) (nm : gmap string string).
Implicit Types (nodes : gset string) (items d : rawdict) (a b node : string).

#[local] Set Default Proof Using "All".

Lemma build_loop_cons nodes node (raw : gset string) items G nm r :
  build_loop set_iter nodes ((node, raw) :: items) G nm = Return r ↔
  ∃ a names,
    node_name_of node = Return a
    ∧ traverse get_model_name_from_filename (set_iter raw) = Return names
    ∧ build_loop set_iter nodes items
        (<[a := filter_deps nodes a (list_to_set names)]> G) (<[a := node]> nm)
      = Return r.
Proof.
  simpl. rewrite bind_Return. split.
  - intros (a & Ha & (names & Hn & H)%bind_Return). by exists a, names.
  - intros (a & names & Ha & Hn & H). exists a. split; [done |].
    apply bind_Return. by exists names.
Qed.

(** Every dependency set the loop records is filtered. *)
Lemma build_loop_filtered nodes items G nm G' nm' :
  build_loop set_iter nodes items G nm = Return (G', nm') →
  ∀ a deps, G' !! a = Some deps →
    G !! a = Some deps ∨ ∀ b, b ∈ deps → b ∈ nodes ∧ b ≠ a.
Proof.
  revert G nm. induction items as [|[node raw] items IH]; intros G nm.
  - intros [= <- <-] a deps H. by left.
  - intros (a0 & names & Ha0 & Hn & H)%build_loop_cons a deps Hd.
    destruct (IH _ _ H a deps Hd) as [Hins | Hf]; [|by right].
    apply lookup_insert_Some in Hins as [[<- <-] | [_ ?]]; [right | by left].
    intros b Hb. apply elem_of_filter_deps in Hb. tauto.
Qed.

Lemma build_loop_dom nodes items G nm G' nm' :
  build_loop set_iter nodes items G nm = Return (G', nm') →
  ∀ a, (a ∈ dom G' ↔
          a ∈ dom G ∨ ∃ node, node ∈ items.*1 ∧ node_name_of node = Return a)
       ∧ (a ∈ dom nm' ↔
          a ∈ dom nm ∨ ∃ node, node ∈ items.*1 ∧ node_name_of node = Return a).
Proof.
  revert G nm. induction items as [|[node raw] items IH]; intros G nm.
  - intros [= <- <-] a.
    split; (split; [by left | intros [? | (? & ?%not_elem_of_nil & _)]; done]).
  - intros (a0 & names & Ha0 & Hn & H)%build_loop_cons a.
    destruct (IH _ _ H a) as [HG Hnm]. rewrite HG, Hnm, !dom_insert_L.
    rewrite !elem_of_union, !elem_of_singleton. simpl.
    setoid_rewrite elem_of_cons.
    split; (split;
      [ intros [[-> | ?] | (n & ? & ?)];
        [ right; exists node; by split; [left |]
        | by left
        | right; exists n; by split; [right |] ]
      | intros [? | (n & [-> | ?] & Hn')];
        [ by left; right
        | left; left; congruence
        | right; by exists n ] ]).
Qed.

Lemma build_loop_names nodes items G nm G' nm' :
  build_loop set_iter nodes items G nm = Return (G', nm') →
  ∀ a f, nm' !! a = Some f →
    nm !! a = Some f ∨ (f ∈ items.*1 ∧ node_name_of f = Return a).
Proof.
  revert G nm. induction items as [|[node raw] items IH]; intros G nm.
  - intros [= <- <-] a f H. by left.
  - intros (a0 & names & Ha0 & Hn & H)%build_loop_cons a f Hf.
    destruct (IH _ _ H a f Hf) as [Hins | [Hin Hname]].
    + apply lookup_insert_Some in Hins as [[<- <-] | [_ ?]]; [right | by left].
      split; [apply list_elem_of_here | done].
    + right. split; [by apply list_elem_of_further | done].
Qed.

(** What [build_graph] guarantees about its three results. *)
Lemma build_graph_spec d nodes G nm :
  build_graph set_iter d = Return (nodes, G, nm) →
  (∀ a, a ∈ nodes ↔ ∃ node, node ∈ d.*1 ∧ node_name_of node = Return a)
  ∧ dom G = nodes
  ∧ dom nm = nodes
  ∧ (∀ a deps b, G !! a = Some deps → b ∈ deps → b ∈ nodes ∧ b ≠ a)
  ∧ (∀ a f, nm !! a = Some f → f ∈ d.*1 ∧ node_name_of f = Return a).
Proof.
  unfold build_graph.
  intros (nodes' & Hnodes & ([G' nm'] & Hloop & [= <- <- <-])%bind_Return)%bind_Return.
  pose proof (tracked_nodes_spec _ _ Hnodes) as Hspec.
  split_and!.
  - done.
  - apply set_eq. intros a.
    destruct (build_loop_dom _ _ _ _ _ _ Hloop a) as [-> _].
    rewrite dom_empty_L, Hspec. set_solver.
  - apply set_eq. intros a.
    destruct (build_loop_dom _ _ _ _ _ _ Hloop a) as [_ ->].
    rewrite dom_empty_L, Hspec. set_solver.
  - intros a deps b Hd Hb.
    destruct (build_loop_filtered _ _ _ _ _ _ Hloop a deps Hd) as [? | Hf];
      [done | by apply Hf].
  - intros a f Hf.
    destruct (build_loop_names _ _ _ _ _ _ Hloop a f Hf) as [? | ?]; done.
Qed.

Lemma build_graph_keys_named d nodes G nm :
  build_graph set_iter d = Return (nodes, G, nm) →
  ∀ node, node ∈ d.*1 → ∃ a, node_name_of node = Return a ∧ a ∈ nodes.
Proof.
  unfold build_graph. intros (nodes' & Hnodes & (gm & _ & [= <- _ _])%bind_Return)%bind_Return.
  pose proof (tracked_nodes_spec _ _ Hnodes) as Hspec.
  unfold tracked_nodes in Hnodes.
  apply bind_Return in Hnodes as (names & Hn%traverse_Return & _).
  intros node [i Hi]%list_elem_of_lookup.
  destruct (Forall2_lookup_l _ _ _ _ _ Hn Hi) as (a & _ & Ha).
  exists a. split; [done |]. apply Hspec. exists node.
  split; [by eapply list_elem_of_lookup_2 | done].
Qed.

Lemma build_graph_closed d nodes G nm :
  build_graph set_iter d = Return (nodes, G, nm) → closed G.
Proof.
  intros (_ & <- & _ & Hf & _)%build_graph_spec a b (deps & Hd & Hb).
  by destruct (Hf a deps b Hd Hb).
Qed.

(** The only exceptions of the build phase are the [IndexError] of a key
    without ["modular_"] and the [ValueError] of a module path the resolver
    rejects. *)
Lemma build_loop_total nodes items G nm :
  (∀ node, node ∈ items.*1 → ∃ a, node_name_of node = Return a) →
  (∀ node raw m, (node, raw) ∈ items → m ∈ raw →
     ∃ n, get_model_name_from_filename m = Return n) →
  ∃ r, build_loop set_iter nodes items G nm = Return r.
Proof.
  revert G nm. induction items as [|[node raw] items IH]; intros G nm Hk Hv.
  - by eexists.
  - destruct (Hk node) as [a Ha]; [apply list_elem_of_here |].
    destruct (traverse_total get_model_name_from_filename (set_iter raw)) as [names Hn].
    { intros m Hm. apply (Hv node raw); [apply list_elem_of_here |].
      by rewrite set_iter_perm, elem_of_elements in Hm. }
    edestruct IH as [r Hr]; [| |exists r; apply build_loop_cons; by exists a, names].
    + intros n Hn'. apply Hk. by apply list_elem_of_further.
    + intros n r' m Hn' Hm. apply (Hv n r'); [by apply list_elem_of_further | done].
Qed.

Lemma build_graph_total d :
  (∀ node, node ∈ d.*1 → ∃ a, node_name_of node = Return a) →
  (∀ node raw m, (node, raw) ∈ d → m ∈ raw →
     ∃ n, get_model_name_from_filename m = Return n) →
  ∃ nodes G nm, build_graph set_iter d = Return (nodes, G, nm).
Proof.
  intros Hk Hv. unfold build_graph, tracked_nodes.
  destruct (traverse_total node_name_of (d.*1) Hk) as [names ->]. simpl.
  destruct (build_loop_total (list_to_set names) d ∅ ∅ Hk Hv) as [[G nm] ->].
  simpl. by exists (list_to_set names), G, nm.
Qed.

End Build.

(** ** The raw dependency map *)

Section RawDict.

Implicit Types (d : rawdict) (f g m : string) (D : gset string).

Lemma rawdict_get_add d f m g :
  rawdict_get (add_dependency d f m) g =
    if decide (g = f) then Some (default ∅ (rawdict_get d f) ∪ {[ m ]})
    else rawdict_get d g.
Proof.
  induction d as [|[k v] d IH]; simpl.
  - destruct (decide (f = g)) as [-> | ?].
    + rewrite decide_True by done. f_equal. set_solver.
    + by rewrite decide_False by done.
  - destruct (decide (k = f)) as [-> | Hk]; simpl.
    + destruct (decide (f = g)) as [-> | ?].
      * by rewrite decide_True by done.
      * by rewrite decide_False by done.
    + destruct (decide (k = g)) as [-> | ?].
      * by rewrite decide_False by done.
      * done.
Qed.

Lemma rawdict_get_foldl (ms : list string) d f g :
  rawdict_get (foldl (λ d m, add_dependency d f m) d ms) g =
    if decide (g = f ∧ ms ≠ []) then
      Some (default ∅ (rawdict_get d f) ∪ list_to_set ms)
    else rawdict_get d g.
Proof.
  revert d. induction ms as [|m ms IH]; intros d; simpl.
  - rewrite decide_False; [done | intros [_ ?]; congruence].
  - rewrite IH, !rawdict_get_add, (decide_True (P := f = f)) by done. simpl.
    destruct (decide (g = f)) as [-> | Hne].
    + rewrite (decide_True (P := f = f ∧ m :: ms ≠ [])) by done.
      destruct (decide (ms = [])) as [-> | ?].
      * rewrite decide_False by (intros [_ ?]; congruence). f_equal. set_solver.
      * rewrite decide_True by done. f_equal. set_solver.
    + rewrite !decide_False; [done | by intros [? _] | by intros [? _]].
Qed.

Lemma elem_of_keys d f : f ∈ d.*1 ↔ is_Some (rawdict_get d f).
Proof.
  induction d as [|[k v] d IH]; simpl.
  - split; [by intros ?%not_elem_of_nil | by intros [? ?]].
  - rewrite elem_of_cons, IH. case_decide as Hk.
    + split; [by eexists | by left].
    + split; [by intros [-> | ?] | by right].
Qed.

Lemma rawdict_get_elem d f D : rawdict_get d f = Some D → (f, D) ∈ d.
Proof.
  induction d as [|[k v] d IH]; simpl; [done |]. case_decide as Hk.
  - intros [= <-]. subst. apply list_elem_of_here.
  - intros H. by apply list_elem_of_further, IH.
Qed.

Lemma keys_add d f m :
  (add_dependency d f m).*1 = if decide (f ∈ d.*1) then d.*1 else (d.*1 ++ [f])%list.
Proof.
  induction d as [|[k v] d IH]; csimpl.
  - done.
  - destruct (decide (k = f)) as [-> | Hk]; csimpl.
    + rewrite decide_True; [done | apply list_elem_of_here].
    + rewrite IH. destruct (decide (f ∈ d.*1)) as [Hin | Hin].
      * rewrite decide_True; [done | by apply list_elem_of_further].
      * rewrite decide_False; [done |].
        intros [-> | ?]%elem_of_cons; done.
Qed.

Lemma NoDup_keys_add d f m : NoDup (d.*1) → NoDup ((add_dependency d f m).*1).
Proof.
  intros H. rewrite keys_add. case_decide as Hin; [done |].
  apply NoDup_app. split_and!; [done | | apply NoDup_singleton].
  intros x Hx ->%list_elem_of_singleton. done.
Qed.

Lemma NoDup_keys_foldl (ms : list string) d f :
  NoDup (d.*1) → NoDup ((foldl (λ d m, add_dependency d f m) d ms).*1).
Proof.
  revert d. induction ms as [|m ms IH]; intros d H; simpl; [done |].
  by apply IH, NoDup_keys_add.
Qed.

End RawDict.

Section MapDependencies.

Variable set_iter : gset string → list string.
Hypothesis set_iter_perm : ∀ X, set_iter X ≡ₚ elements X.
Variable parse_file : string → option ast_node.

Implicit Types (d : rawdict) (f m : string) (D : gset string) (py_files : list string).

#[local] Set Default Proof Using "All".

(** The dictionary after the loop over [py_files], started from [d0]: the
    entry of a file is created or grown only when the file has at least
    one qualifying import. *)
Lemma map_dependencies_loop_spec py_files d0 d :
  map_dependencies_loop set_iter parse_file py_files d0 = Return d →
  (∀ f, f ∈ py_files → is_Some (parse_file f))
  ∧ (NoDup (d0.*1) → NoDup (d.*1))
  ∧ ∀ f, rawdict_get d f =
      match parse_file f with
      | Some tree =>
          if decide (f ∈ py_files ∧ extract_imports tree ≠ ∅)
          then Some (default ∅ (rawdict_get d0 f) ∪ extract_imports tree)
          else rawdict_get d0 f
      | None => rawdict_get d0 f
      end.
Proof.
  revert d0. induction py_files as [|f0 py_files IH]; intros d0 H.
  - injection H as <-. split_and!; [by intros ? ?%not_elem_of_nil | done |].
    intros f. destruct (parse_file f); [|done].
    rewrite decide_False; [done | by intros [?%not_elem_of_nil _]].
  - simpl in H. unfold extract_classes_and_imports in H.
    destruct (parse_file f0) as [tree0|] eqn:Hp0; [simpl in H | done].
    apply IH in H as (Hparse & Hnd & Hget). split_and!.
    + intros f [-> | ?]%elem_of_cons; [by rewrite Hp0 | by apply Hparse].
    + intros H. by apply Hnd, NoDup_keys_foldl.
    + intros f. rewrite Hget. clear Hget Hnd.
      assert (∀ g, rawdict_get
                (foldl (λ d m, add_dependency d f0 m) d0
                   (set_iter (extract_imports tree0))) g =
              if decide (g = f0 ∧ extract_imports tree0 ≠ ∅)
              then Some (default ∅ (rawdict_get d0 f0) ∪ extract_imports tree0)
              else rawdict_get d0 g) as ->.
      { intros g. rewrite rawdict_get_foldl, list_to_set_set_iter by done.
        destruct (decide (g = f0 ∧ extract_imports tree0 ≠ ∅)) as [[-> Hx] | Hn].
        - rewrite decide_True; [done |]. split; [done | by rewrite set_iter_nil].
        - rewrite decide_False; [done |]. by rewrite set_iter_nil. }
      destruct (parse_file f) as [tree|] eqn:Hp.
      * destruct (decide (f = f0)) as [-> | Hne].
        -- assert (tree = tree0) as -> by congruence.
           destruct (decide (extract_imports tree0 = ∅)) as [He | He].
           ++ rewrite !decide_False by tauto. done.
           ++ rewrite (decide_True (P := f0 = f0 ∧ _)) by done.
              rewrite (decide_True (P := f0 ∈ f0 :: py_files ∧ _))
                by (split; [apply list_elem_of_here | done]).
              simpl. case_decide; f_equal; set_solver.
        -- rewrite (decide_False (P := f = f0 ∧ _)) by tauto.
           destruct (decide (f ∈ py_files ∧ extract_imports tree ≠ ∅)) as [[? ?] | Hn].
           ++ rewrite decide_True; [done |].
              split; [by apply list_elem_of_further | done].
           ++ rewrite decide_False; [done |].
              intros [[-> | ?]%elem_of_cons ?]; [done | by apply Hn].
      * rewrite decide_False; [done |].
        intros [-> _]. congruence.
Qed.

Lemma map_dependencies_spec py_files d :
  map_dependencies set_iter parse_file py_files = Return d →
  NoDup (d.*1)
  ∧ (∀ f, f ∈ py_files → is_Some (parse_file f))
  ∧ ∀ f D, rawdict_get d f = Some D ↔
      f ∈ py_files
      ∧ ∃ tree, parse_file f = Some tree ∧ D = extract_imports tree ∧ D ≠ ∅.
Proof.
  intros (Hparse & Hnd & Hget)%map_dependencies_loop_spec. split_and!.
  - apply Hnd. constructor.
  - done.
  - intros f D. rewrite Hget. simpl.
    destruct (parse_file f) as [tree|] eqn:Hp.
    + case_decide as Hc.
      * destruct Hc as [Hin Hne]. split.
        -- intros [= <-]. split; [done |]. exists tree.
           split_and!; [done | set_solver | set_solver].
        -- intros (_ & tree' & [= <-] & -> & _). f_equal. set_solver.
      * split; [done |]. intros (Hin & tree' & [= <-] & -> & Hne).
        by destruct Hc.
    + split; [done |]. by intros (_ & ? & ? & _).
Qed.

End MapDependencies.

(** ** [topological_sort] and [find_priority_list] *)

Section NameMapping.

Implicit Types (nm : gmap string string) (a f : string) (names out : list string).

Lemma dict_get_Return nm a f : dict_get nm a = Return f ↔ nm !! a = Some f.
Proof.
  unfold dict_get. destruct (nm !! a); split; intros H; by simplify_eq.
Qed.

Lemma traverse_dict_get nm names out :
  traverse (dict_get nm) names = Return out ↔
  Forall2 (λ a f, nm !! a = Some f) names out.
Proof.
  rewrite traverse_Return.
  split; intros H; (eapply Forall2_impl; [exact H |]); intros a f;
    by rewrite dict_get_Return.
Qed.

Lemma traverse_dict_get_total nm names :
  (∀ a, a ∈ names → a ∈ dom nm) → ∃ out, traverse (dict_get nm) names = Return out.
Proof.
  intros H. apply traverse_total. intros a [f Hf]%H%elem_of_dom.
  exists f. by apply dict_get_Return.
Qed.

Lemma sorted_files_precedes nm names out a b :
  Forall2 (λ a f, nm !! a = Some f) names out →
  precedes names b a →
  ∃ fa fb, nm !! a = Some fa ∧ nm !! b = Some fb ∧ precedes out fb fa.
Proof.
  intros HF (i & j & Hi & Hj & Hij).
  destruct (Forall2_lookup_l _ _ _ _ _ HF Hi) as (fb & Hfb & Hb).
  destruct (Forall2_lookup_l _ _ _ _ _ HF Hj) as (fa & Hfa & Ha).
  exists fa, fb. split_and!; [done | done |]. by exists i, j.
Qed.

End NameMapping.

Section TopologicalSort.

Variable set_iter : gset string → list string.
Hypothesis set_iter_perm : ∀ X, set_iter X ≡ₚ elements X.

Implicit Types (G : gmap string (gset string)) (nm : gmap string string).
Implicit Types (nodes : gset string) (d : rawdict) (a b f : string).
Implicit Types (fuel : nat) (names out : list string).

#[local] Set Default Proof Using "All".

Lemma topological_sort_unfold fuel d nodes G nm :
  build_graph set_iter d = Return (nodes, G, nm) →
  topological_sort set_iter fuel d =
    (sorting_list ←! peel set_iter fuel G []; traverse (dict_get nm) sorting_list).
Proof. intros H. unfold topological_sort. by rewrite H. Qed.

Lemma topological_sort_Return fuel d out :
  topological_sort set_iter fuel d = Return out →
  ∃ nodes G nm names,
    build_graph set_iter d = Return (nodes, G, nm)
    ∧ peel set_iter fuel G [] = Return names
    ∧ Forall2 (λ a f, nm !! a = Some f) names out.
Proof.
  unfold topological_sort.
  intros ([[nodes G] nm] & Hb & (names & Hp & Ht)%bind_Return)%bind_Return.
  exists nodes, G, nm, names. by rewrite <- traverse_dict_get.
Qed.

(** On a cycle-free filtered graph the sort returns, and what it returns is
    the image under [name_mapping] of a list of node names that satisfies
    the loop invariant with an empty graph left. *)
Lemma topological_sort_acyclic d nodes G nm :
  build_graph set_iter d = Return (nodes, G, nm) →
  acyclic G →
  ∃ names out,
    (∀ fuel, (size G ≤ fuel)%nat → topological_sort set_iter fuel d = Return out)
    ∧ peel_inv G ∅ names
    ∧ Forall2 (λ a f, nm !! a = Some f) names out.
Proof.
  intros Hb Hac.
  destruct (peel_terminates set_iter set_iter_perm (size G) G []) as [names Hn];
    [by eapply build_graph_closed | done | done |].
  pose proof (peel_inv_result set_iter set_iter_perm _ G G [] names
                (peel_inv_init G) Hn) as Hinv.
  destruct (traverse_dict_get_total nm names) as [out Hout].
  { intros a Ha. apply (inv_out _ _ _ Hinv) in Ha as [Ha _].
    destruct (build_graph_spec set_iter set_iter_perm _ _ _ _ Hb)
      as (_ & HG & Hnm & _).
    by rewrite Hnm, <- HG. }
  exists names, out. split_and!; [| done | by apply traverse_dict_get].
  intros fuel Hfuel. rewrite (topological_sort_unfold _ _ _ _ _ Hb).
  by rewrite (peel_fuel_mono set_iter set_iter_perm _ _ _ _ _ Hn Hfuel).
Qed.

Lemma name_mapping_inj d nodes G nm a b f :
  build_graph set_iter d = Return (nodes, G, nm) →
  nm !! a = Some f → nm !! b = Some f → a = b.
Proof.
  intros Hb Ha Hb'.
  destruct (build_graph_spec set_iter set_iter_perm _ _ _ _ Hb)
    as (_ & _ & _ & _ & Hnm).
  destruct (Hnm _ _ Ha) as [_ Ha1], (Hnm _ _ Hb') as [_ Hb1]. congruence.
Qed.

Lemma sorted_files_NoDup d nodes G nm names out :
  build_graph set_iter d = Return (nodes, G, nm) →
  NoDup names → Forall2 (λ a f, nm !! a = Some f) names out → NoDup out.
Proof.
  intros Hb Hnd HF. apply NoDup_alt. intros i j f Hi Hj.
  destruct (Forall2_lookup_r _ _ _ _ _ HF Hi) as (a & Ha & Haf).
  destruct (Forall2_lookup_r _ _ _ _ _ HF Hj) as (b & Hb' & Hbf).
  assert (a = b) as -> by (by eapply name_mapping_inj).
  by eapply NoDup_lookup.
Qed.

End TopologicalSort.

Section FindPriorityList.

Variable set_iter : gset string → list string.
Hypothesis set_iter_perm : ∀ X, set_iter X ≡ₚ elements X.
Variable parse_file : string → option ast_node.

Implicit Types (d : rawdict) (fuel : nat) (py_files ordered_files : list string).

#[local] Set Default Proof Using "All".

Lemma find_priority_list_unfold fuel py_files d :
  map_dependencies set_iter parse_file py_files = Return d →
  find_priority_list set_iter parse_file fuel py_files =
    (ordered_files ←! topological_sort set_iter fuel d; Return (ordered_files, d)).
Proof. intros H. unfold find_priority_list. by rewrite H. Qed.

Lemma find_priority_list_Return fuel py_files ordered_files d :
  find_priority_list set_iter parse_file fuel py_files = Return (ordered_files, d) →
  map_dependencies set_iter parse_file py_files = Return d
  ∧ topological_sort set_iter fuel d = Return ordered_files.
Proof.
  unfold find_priority_list.
  by intros (d' & Hd & (o & Ho & [= <- <-])%bind_Return)%bind_Return.
Qed.

End FindPriorityList.

(** * The claims *)

(** ** NameResolver *)

Section NameResolverClaims.

Implicit Types (filename P S N D : string).

(** C7. When the final token of a filename (extension, directory
    components and leading dotted segments removed) starts with none of
    the recognized prefixes, [get_model_name_from_filename] raises the
    [ValueError] naming the file, and returns no name. *)
Theorem unrecognized_file_kind_raises filename :
  (∀ P, In P FILE_TYPE_PREFIXES → str_startswith (final_token filename) P = false) →
  get_model_name_from_filename filename = Raise (not_a_model_file filename)
  ∧ ∀ name, get_model_name_from_filename filename ≠ Return name.
Proof.
  intros H.
  assert (get_model_name_from_filename filename = Raise (not_a_model_file filename))
    as Hraise.
  { unfold get_model_name_from_filename, FILE_TYPE_PREFIXES. simpl.
    rewrite !H; [done | unfold FILE_TYPE_PREFIXES; simpl; tauto ..]. }
  split; [done |]. intros name. by rewrite Hraise.
Qed.

(** C8, as the code has it.  For a recognized prefix [P] and a non-empty
    suffix [S] with neither a dot nor a slash in it, the resolver maps
    [P +:+ S] to [S]; when [P] is the image-processing prefix and [S] ends
    with ["_fast"], to [S] without that ending. *)
Theorem resolver_strips_prefix P S :
  In P FILE_TYPE_PREFIXES →
  S ≠ "" →
  str_contains "." S = false →
  str_contains "/" S = false →
  (P ≠ "image_processing_" → get_model_name_from_filename (P +:+ S) = Return S)
  ∧ (P = "image_processing_" →
     (str_endswith S "_fast" = false →
      get_model_name_from_filename (P +:+ S) = Return S)
     ∧ (∀ S0, S = S0 +:+ "_fast" →
        get_model_name_from_filename (P +:+ S) = Return S0)).
Proof.
  intros HP _ Hd Hs. rewrite str_contains_char in Hd, Hs.
  rewrite (resolve_prefixed P S HP Hd Hs). split.
  - intros Hne. by rewrite image_processing_only.
  - intros ->. split.
    + intros Hfast. by rewrite Hfast.
    + intros S0 ->. rewrite endswith_append. simpl andb. cbv iota.
      f_equal. apply (slice_to_neg_append S0 "_fast").
Qed.

(** C9, as the code has it.  For a non-empty name [N] with neither a dot
    nor a slash in it and not itself ending with ["_fast"], the filenames
    ["image_processing_" +:+ N +:+ "_fast"] and ["image_processing_" +:+ N]
    both resolve to [N]. *)
Theorem image_processing_fast_variant N :
  N ≠ "" →
  str_contains "." N = false →
  str_contains "/" N = false →
  str_endswith N "_fast" = false →
  get_model_name_from_filename ("image_processing_" +:+ N +:+ "_fast") = Return N
  ∧ get_model_name_from_filename ("image_processing_" +:+ N) = Return N.
Proof.
  intros _ Hd Hs Hfast. rewrite str_contains_char in Hd, Hs.
  assert (In "image_processing_" FILE_TYPE_PREFIXES) as HP
    by (unfold FILE_TYPE_PREFIXES; simpl; tauto).
  split.
  - rewrite (resolve_prefixed _ (N +:+ "_fast") HP)
      by (by rewrite char_in_append, ?Hd, ?Hs).
    rewrite endswith_append. simpl andb. cbv iota.
    f_equal. apply (slice_to_neg_append N "_fast").
  - rewrite (resolve_prefixed _ N HP Hd Hs). by rewrite Hfast.
Qed.


End NameResolverClaims.

(** ** ImportExtractor *)

Section ImportExtractorClaims.

Variable parse_file : string → option ast_node.

(** C10. For a file that parses, [extract_classes_and_imports] returns a
    set whose members are exactly the non-empty module paths [m] of the
    [from m import ...] nodes occurring anywhere in the tree for which [m]
    contains [".modeling_"] or ["transformers.models"]; [import ...] nodes
    and all other nodes contribute nothing, and the set lists each module
    path once. *)
Theorem extract_classes_and_imports_spec (file_path : string) (tree : ast_node) :
  parse_file file_path = Some tree →
  ∃ imports,
    extract_classes_and_imports parse_file file_path = Return imports
    ∧ (∀ m, m ∈ imports ↔
         ∃ names level,
           occurs_in (ImportFrom (Some m) names level) tree
           ∧ m ≠ "" ∧ internal_reference m)
    ∧ NoDup (elements imports).
Proof.
  intros Hp. exists (extract_imports tree). split_and!.
  - unfold extract_classes_and_imports. by rewrite Hp.
  - intros m. unfold extract_imports. rewrite elem_of_foldl_visit.
    setoid_rewrite elem_of_walk.
    split; [intros [?%not_elem_of_empty | ?]; done | by right].
  - apply NoDup_elements.
Qed.

End ImportExtractorClaims.

(** ** One more untracked dependency *)

Lemma traverse_Return_image {A B : Type} (f : A → outcome B) (l : list A)
    (ys : list B) (y : B) :
  traverse f l = Return ys → (y ∈ ys ↔ ∃ x, x ∈ l ∧ f x = Return y).
Proof.
  intros HF%traverse_Return. split.
  - intros [i Hi]%list_elem_of_lookup.
    destruct (Forall2_lookup_r _ _ _ _ _ HF Hi) as (x & Hx & Hxy).
    exists x. split; [by eapply list_elem_of_lookup_2 | done].
  - intros (x & [i Hi]%list_elem_of_lookup & Hxy).
    destruct (Forall2_lookup_l _ _ _ _ _ HF Hi) as (y' & Hy' & Hxy').
    assert (y' = y) as -> by congruence. by eapply list_elem_of_lookup_2.
Qed.

Section Untracked.

Variable set_iter : gset string → list string.
Hypothesis set_iter_perm : ∀ X, set_iter X ≡ₚ elements X.

Implicit Types (G : gmap string (gset string)) (nm : gmap string string).
Implicit Types (nodes : gset string) (items d : rawdict) (a f m n : string).

#[local] Set Default Proof Using "All".

(** Resolving one module path more adds its name to the resolved names. *)
Lemma resolve_one_more (D : gset string) m n (names : list string) :
  traverse get_model_name_from_filename (set_iter D) = Return names →
  get_model_name_from_filename m = Return n →
  ∃ names',
    traverse get_model_name_from_filename (set_iter (D ∪ {[ m ]})) = Return names'
    ∧ list_to_set (C := gset string) names' = list_to_set names ∪ {[ n ]}.
Proof.
  intros Hn Hm.
  destruct (traverse_total get_model_name_from_filename (set_iter (D ∪ {[ m ]})))
    as [names' Hn'].
  { intros x Hx. apply (elem_of_set_iter set_iter set_iter_perm) in Hx.
    apply elem_of_union in Hx as [Hx | ->%elem_of_singleton]; [|by exists n].
    apply (elem_of_set_iter set_iter set_iter_perm) in Hx.
    apply list_elem_of_lookup in Hx as [i Hi]. apply traverse_Return in Hn.
    destruct (Forall2_lookup_l _ _ _ _ _ Hn Hi) as (y & _ & Hy). by exists y. }
  exists names'. split; [done |]. apply set_eq. intros b.
  rewrite elem_of_union, elem_of_singleton, !elem_of_list_to_set.
  rewrite (traverse_Return_image _ _ _ b Hn'), (traverse_Return_image _ _ _ b Hn).
  setoid_rewrite (elem_of_set_iter set_iter set_iter_perm).
  setoid_rewrite elem_of_union. setoid_rewrite elem_of_singleton. split.
  - intros (x & [Hx | ->] & Hxb); [left; by exists x | right; congruence].
  - intros [(x & Hx & Hxb) | ->]; [exists x; by split; [left |] | exists m; by split; [right |]].
Qed.

Lemma filter_deps_untracked nodes a (names : gset string) n :
  n ∉ nodes → filter_deps nodes a (names ∪ {[ n ]}) = filter_deps nodes a names.
Proof.
  intros Hn. apply set_eq. intros b.
  rewrite !elem_of_filter_deps, elem_of_union, elem_of_singleton.
  split; [|tauto]. intros [[? | ->] [? ?]]; [tauto | done].
Qed.

(** The loop builds the same graph when the entry of a key gets one more
    module path whose name is no tracked node. *)
Lemma build_loop_add_untracked nodes items G nm f m n r :
  get_model_name_from_filename m = Return n →
  n ∉ nodes →
  f ∈ items.*1 →
  build_loop set_iter nodes items G nm = Return r →
  build_loop set_iter nodes (add_dependency items f m) G nm = Return r.
Proof.
  intros Hm Hn. revert G nm.
  induction items as [|[k v] items IH]; intros G nm Hf H.
  { by apply not_elem_of_nil in Hf. }
  apply (build_loop_cons set_iter set_iter_perm) in H as (a & names & Ha & Hnames & H).
  simpl. destruct (decide (k = f)) as [-> | Hk].
  - destruct (resolve_one_more v m n names Hnames Hm) as (names' & Hnames' & Hset).
    apply (build_loop_cons set_iter set_iter_perm). exists a, names'.
    split_and!; [done | done |].
    by rewrite Hset, filter_deps_untracked.
  - apply (build_loop_cons set_iter set_iter_perm). exists a, names.
    split_and!; [done | done |]. apply IH; [|done].
    csimpl in Hf. by apply elem_of_cons in Hf as [-> | ?].
Qed.

Lemma build_graph_add_untracked d nodes G nm f m n :
  build_graph set_iter d = Return (nodes, G, nm) →
  f ∈ d.*1 →
  get_model_name_from_filename m = Return n →
  n ∉ nodes →
  build_graph set_iter (add_dependency d f m) = Return (nodes, G, nm).
Proof.
  unfold build_graph, tracked_nodes. intros H Hf Hm Hn.
  rewrite keys_add, decide_True by done.
  apply bind_Return in H as (nodes' & Hnodes & H). rewrite Hnodes. simpl.
  apply bind_Return in H as ([G' nm'] & Hloop & [= <- <- <-]).
  by rewrite (build_loop_add_untracked _ _ _ _ f m n _ Hm Hn Hf Hloop).
Qed.

Lemma topological_sort_add_untracked d nodes G nm f m n fuel :
  build_graph set_iter d = Return (nodes, G, nm) →
  f ∈ d.*1 →
  get_model_name_from_filename m = Return n →
  n ∉ nodes →
  topological_sort set_iter fuel (add_dependency d f m)
  = topological_sort set_iter fuel d.
Proof.
  intros Hb Hf Hm Hn. unfold topological_sort.
  by rewrite (build_graph_add_untracked _ _ _ _ f m n Hb Hf Hm Hn), Hb.
Qed.

End Untracked.

(** ** DependencyResolver: the filtered graph and the sort *)

Section TopologicalSortClaims.

Variable set_iter : gset string → list string.
Hypothesis set_iter_perm : ∀ X, set_iter X ≡ₚ elements X.

Implicit Types (G : gmap string (gset string)) (nm : gmap string string).
Implicit Types (nodes : gset string) (d : rawdict) (a b f : string).
Implicit Types (fuel : nat) (names out : list string).

#[local] Set Default Proof Using "All".

Lemma topological_sort_fuel_mono fuel fuel' d out :
  topological_sort set_iter fuel d = Return out → (fuel ≤ fuel')%nat →
  topological_sort set_iter fuel' d = Return out.
Proof.
  unfold topological_sort.
  intros (ngm & Hb & (names & Hp & Ht)%bind_Return)%bind_Return Hle.
  rewrite Hb. simpl.
  by rewrite (peel_fuel_mono set_iter set_iter_perm _ _ _ _ _ Hp Hle).
Qed.

(** C5. Whatever the raw dependency map, no dependency set of the filtered
    graph contains the node it belongs to; this holds for the graph
    [build_graph] hands to the peel loop and for every graph the loop
    derives from it. *)
Theorem filtered_graph_no_self_loop d nodes G nm :
  build_graph set_iter d = Return (nodes, G, nm) →
  (∀ a deps, G !! a = Some deps → a ∉ deps)
  ∧ (∀ k a deps, peel_graph k G !! a = Some deps → a ∉ deps).
Proof.
  intros Hb.
  destruct (build_graph_spec set_iter set_iter_perm _ _ _ _ Hb)
    as (_ & _ & _ & Hf & _).
  assert (∀ a deps, G !! a = Some deps → a ∉ deps) as Hloop.
  { intros a deps Hd Ha. by destruct (Hf a deps a Hd Ha). }
  split; [done |]. intros k a deps Hd Ha.
  destruct (edge_peel_graph k G a a) as (deps' & Hd' & Ha'); [by exists deps |].
  by apply (Hloop a deps').
Qed.

(** C3. Once the graph is built: if it has no cycle, [topological_sort]
    returns for every budget of at least [size G] iterations and its
    result contains the file of every node; if it has a cycle, some
    iteration of the loop starts on a non-empty graph in which no node is
    a leaf, and the call exhausts every budget. *)
Theorem topological_sort_termination d nodes G nm :
  build_graph set_iter d = Return (nodes, G, nm) →
  (acyclic G →
     ∃ out,
       (∀ fuel, (size G ≤ fuel)%nat → topological_sort set_iter fuel d = Return out)
       ∧ ∀ a, a ∈ nodes → ∃ f, nm !! a = Some f ∧ f ∈ out)
  ∧ (has_cycle G →
     (∃ k out',
        (∀ fuel, peel set_iter (k + fuel) G [] =
                   peel set_iter fuel (peel_graph k G) out')
        ∧ 0 < size (peel_graph k G)
        ∧ leaf_nodes (peel_graph k G) = ∅)
     ∧ ∀ fuel, topological_sort set_iter fuel d = OutOfFuel).
Proof.
  intros Hb. split.
  - intros Hac.
    destruct (topological_sort_acyclic set_iter set_iter_perm _ _ _ _ Hb Hac)
      as (names & out & Hret & Hinv & HF).
    exists out. split; [done |]. intros a Ha.
    destruct (build_graph_spec set_iter set_iter_perm _ _ _ _ Hb)
      as (_ & HG & _).
    assert (a ∈ names) as [i Hi]%list_elem_of_lookup.
    { apply (inv_out _ _ _ Hinv). rewrite HG, dom_empty_L. set_solver. }
    destruct (Forall2_lookup_l _ _ _ _ _ HF Hi) as (f & Hf & Haf).
    exists f. split; [done | by eapply list_elem_of_lookup_2].
  - intros Hcyc. split; [by apply peel_stuck |].
    intros fuel.
    rewrite (topological_sort_unfold set_iter set_iter_perm _ _ _ _ _ Hb).
    by rewrite (peel_diverges set_iter set_iter_perm fuel G [] Hcyc).
Qed.

End TopologicalSortClaims.

Section FindPriorityListClaims.

Variable set_iter : gset string → list string.
Hypothesis set_iter_perm : ∀ X, set_iter X ≡ₚ elements X.
Variable parse_file : string → option ast_node.

Implicit Types (G : gmap string (gset string)) (nm : gmap string string).
Implicit Types (nodes : gset string) (d raw : rawdict) (a b f m n : string).
Implicit Types (fuel : nat) (py_files ordered_files : list string).

#[local] Set Default Proof Using "All".

(** C1. When the filtered graph built from the input files has no cycle,
    [find_priority_list] returns, always the same pair, and in its list
    the file of [B] sits before the file of [A] for every edge "[A]
    depends on [B]" of the filtered graph. *)
Theorem find_priority_list_topological_order py_files d nodes G nm :
  map_dependencies set_iter parse_file py_files = Return d →
  build_graph set_iter d = Return (nodes, G, nm) →
  acyclic G →
  ∃ ordered_files,
    (∀ fuel, (size G ≤ fuel)%nat →
       find_priority_list set_iter parse_file fuel py_files
       = Return (ordered_files, d))
    ∧ (∀ fuel r,
         find_priority_list set_iter parse_file fuel py_files = Return r →
         r = (ordered_files, d))
    ∧ NoDup ordered_files
    ∧ ∀ A B, edge G A B →
        ∃ fA fB, nm !! A = Some fA ∧ nm !! B = Some fB
                 ∧ precedes ordered_files fB fA.
Proof.
  intros Hmap Hb Hac.
  destruct (topological_sort_acyclic set_iter set_iter_perm _ _ _ _ Hb Hac)
    as (names & out & Hret & Hinv & HF).
  exists out. split_and!.
  - intros fuel Hfuel.
    rewrite (find_priority_list_unfold set_iter set_iter_perm parse_file _ _ _ Hmap).
    by rewrite Hret.
  - intros fuel [o d'] Hr.
    apply (find_priority_list_Return set_iter set_iter_perm) in Hr as [Hd Ho].
    assert (d' = d) as -> by congruence.
    apply (topological_sort_fuel_mono set_iter set_iter_perm _ (fuel `max` size G))
      in Ho; [|lia].
    rewrite Hret in Ho by lia. congruence.
  - eapply (sorted_files_NoDup set_iter set_iter_perm); [done | | done].
    apply (inv_nodup _ _ _ Hinv).
  - intros A B HAB. apply (sorted_files_precedes nm names); [done |].
    apply (inv_order _ _ _ Hinv); [|done].
    apply (inv_out _ _ _ Hinv). rewrite dom_empty_L.
    destruct HAB as (deps & Hd & _).
    split; [apply elem_of_dom; by eexists | set_solver].
Qed.

(** C2, where the code departs from it.  A file whose tree has no
    qualifying import gets no entry in the dictionary that
    [map_dependencies] builds, so it is in no list that
    [find_priority_list] returns. *)
Theorem file_without_imports_is_dropped py_files f tree fuel ordered_files d :
  f ∈ py_files →
  parse_file f = Some tree →
  extract_imports tree = ∅ →
  find_priority_list set_iter parse_file fuel py_files = Return (ordered_files, d) →
  (f ∉ ordered_files) ∧ (f ∉ d.*1).
Proof.
  intros _ Hp Hempty Hr.
  apply (find_priority_list_Return set_iter set_iter_perm) in Hr as [Hd Ho].
  destruct (map_dependencies_spec set_iter set_iter_perm parse_file _ _ Hd)
    as (_ & _ & Hget).
  assert (f ∉ d.*1) as Hkey.
  { intros [D HD]%elem_of_keys. apply Hget in HD as (_ & tree' & Hp' & -> & Hne).
    congruence. }
  split; [|done]. intros [i Hi]%list_elem_of_lookup.
  apply (topological_sort_Return set_iter set_iter_perm) in Ho
    as (nodes & G & nm & names & Hb & _ & HF).
  destruct (Forall2_lookup_r _ _ _ _ _ HF Hi) as (a & _ & Haf).
  destruct (build_graph_spec set_iter set_iter_perm _ _ _ _ Hb)
    as (_ & _ & _ & _ & Hnm).
  by destruct (Hnm a f Haf).
Qed.

(** The other side of C2: when every input file has at least one qualifying
    import, no path is listed twice and no two paths share a node name, the
    list returned on a cycle-free graph is a permutation of the input. *)
Lemma find_priority_list_permutation py_files d nodes G nm :
  map_dependencies set_iter parse_file py_files = Return d →
  build_graph set_iter d = Return (nodes, G, nm) →
  acyclic G →
  NoDup py_files →
  (∀ f tree, f ∈ py_files → parse_file f = Some tree → extract_imports tree ≠ ∅) →
  (∀ f g a, f ∈ py_files → g ∈ py_files →
     node_name_of f = Return a → node_name_of g = Return a → f = g) →
  ∃ ordered_files,
    (∀ fuel, (size G ≤ fuel)%nat →
       find_priority_list set_iter parse_file fuel py_files
       = Return (ordered_files, d))
    ∧ ordered_files ≡ₚ py_files.
Proof.
  intros Hmap Hb Hac Hnd Himp Hinj.
  destruct (topological_sort_acyclic set_iter set_iter_perm _ _ _ _ Hb Hac)
    as (names & out & Hret & Hinv & HF).
  destruct (map_dependencies_spec set_iter set_iter_perm parse_file _ _ Hmap)
    as (_ & Hparse & Hget).
  destruct (build_graph_spec set_iter set_iter_perm _ _ _ _ Hb)
    as (_ & HG & Hdnm & _ & Hnm).
  assert (∀ f, f ∈ d.*1 ↔ f ∈ py_files) as Hkeys.
  { intros f. rewrite elem_of_keys. split.
    - intros [D HD]. by apply Hget in HD as [? _].
    - intros Hin. destruct (Hparse f Hin) as [tree Hp].
      exists (extract_imports tree). apply Hget. split; [done |].
      exists tree. split_and!; [done | done | by eapply Himp]. }
  exists out. split.
  - intros fuel Hfuel.
    rewrite (find_priority_list_unfold set_iter set_iter_perm parse_file _ _ _ Hmap).
    by rewrite Hret.
  - apply NoDup_Permutation; [|done |].
    + eapply (sorted_files_NoDup set_iter set_iter_perm); [done | | done].
      apply (inv_nodup _ _ _ Hinv).
    + intros f. split.
      * intros [i Hi]%list_elem_of_lookup.
        destruct (Forall2_lookup_r _ _ _ _ _ HF Hi) as (a & _ & Haf).
        apply Hkeys. by destruct (Hnm a f Haf).
      * intros Hin.
        destruct (build_graph_keys_named set_iter set_iter_perm _ _ _ _ Hb f)
          as (a & Ha & Hanodes); [by apply Hkeys |].
        assert (a ∈ dom nm) as [g Hg]%elem_of_dom by (by rewrite Hdnm).
        destruct (Hnm a g Hg) as [Hgk Hga].
        assert (f = g) as <- by (eapply Hinj; [done | by apply Hkeys | done | done]).
        assert (a ∈ names) as [i Hi]%list_elem_of_lookup.
        { apply (inv_out _ _ _ Hinv). rewrite HG, dom_empty_L. set_solver. }
        destruct (Forall2_lookup_l _ _ _ _ _ HF Hi) as (f' & Hf' & Haf').
        assert (f' = f) as -> by congruence. by eapply list_elem_of_lookup_2.
Qed.

(** C6. Provided every key of the raw map has a node name and every module
    path in it resolves, the build phase returns, the call raises nothing,
    and on a cycle-free graph it returns, handing back the raw map as
    [map_dependencies] built it.  A module path [m] extracted from the file
    [f] whose entity name [n] is not a tracked node is in no dependency set
    of the filtered graph, yet is in the entry of [f] in the raw map the
    caller gets.  And the sort does not see such a dependency at all: one
    more of them in the entry of any key leaves its outcome as it is. *)
Theorem untracked_dependency_is_dropped py_files d :
  map_dependencies set_iter parse_file py_files = Return d →
  (∀ node, node ∈ d.*1 → ∃ a, node_name_of node = Return a) →
  (∀ node deps m, (node, deps) ∈ d → m ∈ deps →
     ∃ n, get_model_name_from_filename m = Return n) →
  ∃ nodes G nm,
    build_graph set_iter d = Return (nodes, G, nm)
    ∧ (∀ fuel e, find_priority_list set_iter parse_file fuel py_files ≠ Raise e)
    ∧ (acyclic G →
       ∃ ordered_files,
         ∀ fuel, (size G ≤ fuel)%nat →
           find_priority_list set_iter parse_file fuel py_files
           = Return (ordered_files, d))
    ∧ (∀ f tree m n,
         f ∈ py_files →
         parse_file f = Some tree →
         m ∈ extract_imports tree →
         get_model_name_from_filename m = Return n →
         n ∉ nodes →
         (∀ a deps, G !! a = Some deps → n ∉ deps)
         ∧ (∃ D, rawdict_get d f = Some D ∧ m ∈ D)
         ∧ (∀ fuel ordered_files raw,
              find_priority_list set_iter parse_file fuel py_files
              = Return (ordered_files, raw) →
              ∃ D, rawdict_get raw f = Some D ∧ m ∈ D))
    ∧ (∀ f m n fuel,
         f ∈ d.*1 →
         get_model_name_from_filename m = Return n →
         n ∉ nodes →
         topological_sort set_iter fuel (add_dependency d f m)
         = topological_sort set_iter fuel d).
Proof.
  intros Hmap Hk Hv.
  destruct (build_graph_total set_iter set_iter_perm d Hk Hv) as (nodes & G & nm & Hb).
  destruct (build_graph_spec set_iter set_iter_perm _ _ _ _ Hb)
    as (_ & HG & Hnm & Hf & _).
  destruct (map_dependencies_spec set_iter set_iter_perm parse_file _ _ Hmap)
    as (_ & _ & Hget).
  exists nodes, G, nm. split_and!; [done | | | |].
  - intros fuel e.
    rewrite (find_priority_list_unfold set_iter set_iter_perm parse_file _ _ _ Hmap).
    rewrite (topological_sort_unfold set_iter set_iter_perm _ _ _ _ _ Hb).
    destruct (peel set_iter fuel G []) as [names | e' |] eqn:Hp; simpl; [| |done].
    + destruct (traverse_dict_get_total nm names) as [out ->]; [|done].
      intros a Ha.
      pose proof (peel_inv_result set_iter set_iter_perm _ G G [] names
                    (peel_inv_init G) Hp) as Hinv.
      apply (inv_out _ _ _ Hinv) in Ha as [Ha _]. by rewrite Hnm, <- HG.
    + by apply (peel_never_raises set_iter set_iter_perm) in Hp.
  - intros Hac.
    destruct (topological_sort_acyclic set_iter set_iter_perm _ _ _ _ Hb Hac)
      as (names & out & Hret & _).
    exists out. intros fuel Hfuel.
    rewrite (find_priority_list_unfold set_iter set_iter_perm parse_file _ _ _ Hmap).
    by rewrite Hret.
  - intros f tree m n Hin Hp Hm Hn Hnot.
    assert (rawdict_get d f = Some (extract_imports tree)) as Hraw.
    { apply Hget. split; [done |]. exists tree. split_and!; [done | done | set_solver]. }
    split_and!.
    + intros a deps Hd Hnd. by destruct (Hf a deps n Hd Hnd).
    + by exists (extract_imports tree).
    + intros fuel ordered_files raw Hr.
      apply (find_priority_list_Return set_iter set_iter_perm) in Hr as [Hd _].
      assert (raw = d) as -> by congruence.
      by exists (extract_imports tree).
  - intros f m n fuel Hin Hm Hn.
    by apply (topological_sort_add_untracked set_iter set_iter_perm _ nodes G nm _ _ n).
Qed.

End FindPriorityListClaims.

(** * The statements on the sample inputs *)

Section Instances.

(** The sample runs iterate a set in the order of [elements]. *)
Lemma elements_perm : ∀ X : gset string, elements X ≡ₚ elements X.
Proof. reflexivity. Qed.

Lemma unrecognized_file_kind_raises_witness :
  (∀ P, In P FILE_TYPE_PREFIXES →
     str_startswith (final_token "utils_helpers.py") P = false)
  ∧ get_model_name_from_filename "utils_helpers.py"
    = Raise (not_a_model_file "utils_helpers.py")
  ∧ ∀ name, get_model_name_from_filename "utils_helpers.py" ≠ Return name.
Proof.
  assert (∀ P, In P FILE_TYPE_PREFIXES →
            str_startswith (final_token "utils_helpers.py") P = false) as H.
  { intros P HP. unfold FILE_TYPE_PREFIXES in HP. simpl in HP.
    repeat destruct HP as [<- | HP]; try reflexivity. destruct HP. }
  split; [exact H | exact (unrecognized_file_kind_raises "utils_helpers.py" H)].
Defined.

Lemma resolver_strips_prefix_witness :
  In "image_processing_" FILE_TYPE_PREFIXES
  ∧ "vit_fast" ≠ ""
  ∧ get_model_name_from_filename ("image_processing_" +:+ "vit_fast") = Return "vit"
  ∧ In "modeling_" FILE_TYPE_PREFIXES
  ∧ get_model_name_from_filename ("modeling_" +:+ "vit_fast") = Return "vit_fast".
Proof.
  assert (In "image_processing_" FILE_TYPE_PREFIXES) as H1
    by (unfold FILE_TYPE_PREFIXES; simpl; tauto).
  assert (In "modeling_" FILE_TYPE_PREFIXES) as H2
    by (unfold FILE_TYPE_PREFIXES; simpl; tauto).
  assert ("vit_fast" ≠ "") as Hne by discriminate.
  split_and!; [exact H1 | exact Hne | | exact H2 |].
  - exact (proj2 (proj2 (resolver_strips_prefix "image_processing_" "vit_fast"
                           H1 Hne eq_refl eq_refl) eq_refl) "vit" eq_refl).
  - refine (proj1 (resolver_strips_prefix "modeling_" "vit_fast"
                     H2 Hne eq_refl eq_refl) _). discriminate.
Defined.

Lemma image_processing_fast_variant_witness :
  "vit" ≠ ""
  ∧ str_endswith "vit" "_fast" = false
  ∧ get_model_name_from_filename ("image_processing_" +:+ "vit" +:+ "_fast")
    = Return "vit"
  ∧ get_model_name_from_filename ("image_processing_" +:+ "vit") = Return "vit".
Proof.
  assert ("vit" ≠ "") as Hne by discriminate.
  split_and!; [exact Hne | reflexivity | |];
    apply (image_processing_fast_variant "vit" Hne eq_refl eq_refl eq_refl).
Defined.


Lemma extract_classes_and_imports_spec_witness :
  extract_classes_and_imports sample_files "models/b/modular_b.py"
  = Return {[ "a.modeling_a"; "transformers.models.b.configuration_b" ]}
  ∧ extract_classes_and_imports sample_files "models/c/modular_c.py"
    = Return {[ "a.modeling_a"; "b.modeling_b" ]}
  ∧ (∃ imports,
       extract_classes_and_imports sample_files "models/b/modular_b.py"
       = Return imports
       ∧ (∀ m, m ∈ imports ↔
            ∃ names level,
              occurs_in (ImportFrom (Some m) names level)
                (Other [ ImportFrom (Some "a.modeling_a") ["AModel"] 2;
                         Other [ ImportFrom
                                   (Some "transformers.models.b.configuration_b")
                                   ["BConfig"] 0 ];
                         ImportFrom None ["utils"] 1 ])
              ∧ m ≠ "" ∧ internal_reference m)
       ∧ NoDup (elements imports))
  ∧ (∃ imports,
       extract_classes_and_imports sample_files "models/c/modular_c.py"
       = Return imports
       ∧ (∀ m, m ∈ imports ↔
            ∃ names level,
              occurs_in (ImportFrom (Some m) names level)
                (Other [ ImportFrom (Some "a.modeling_a") ["AModel"] 2;
                         ImportFrom (Some "b.modeling_b") ["BModel"] 2;
                         ImportFrom (Some "a.modeling_a") ["APreTrainedModel"] 2 ])
              ∧ m ≠ "" ∧ internal_reference m)
       ∧ NoDup (elements imports)).
Proof.
  split; [vm_compute; reflexivity |]. split; [vm_compute; reflexivity |]. split.
  - exact (extract_classes_and_imports_spec sample_files
             "models/b/modular_b.py" _ eq_refl).
  - exact (extract_classes_and_imports_spec sample_files
             "models/c/modular_c.py" _ eq_refl).
Defined.

Lemma sample_build :
  build_graph elements sample_raw
  = Return (sample_nodes, sample_graph, sample_name_mapping).
Proof. vm_compute. reflexivity. Qed.

Lemma sample_map :
  map_dependencies elements sample_files sample_py_files = Return sample_raw.
Proof. vm_compute. reflexivity. Qed.

Lemma sample_acyclic : acyclic sample_graph.
Proof.
  apply (peel_Return_acyclic elements elements_perm 3 sample_graph [] ["a"; "b"; "c"]).
  vm_compute. reflexivity.
Qed.

Lemma cyclic_build :
  build_graph elements cyclic_raw
  = Return (cyclic_nodes, cyclic_graph, cyclic_name_mapping).
Proof. vm_compute. reflexivity. Qed.

Lemma cyclic_has_cycle : has_cycle cyclic_graph.
Proof.
  exists "p". apply tc_l with "q"; [|apply tc_once].
  - exists {[ "q" ]}. split; [vm_compute; reflexivity | set_solver].
  - exists {[ "p" ]}. split; [vm_compute; reflexivity | set_solver].
Qed.

Lemma filtered_graph_no_self_loop_witness :
  build_graph elements sample_raw
  = Return (sample_nodes, sample_graph, sample_name_mapping)
  ∧ (∀ a deps, sample_graph !! a = Some deps → a ∉ deps)
  ∧ (∀ k a deps, peel_graph k sample_graph !! a = Some deps → a ∉ deps).
Proof.
  split; [exact sample_build |].
  exact (filtered_graph_no_self_loop elements elements_perm _ _ _ _ sample_build).
Defined.

Lemma topological_sort_termination_witness :
  (acyclic sample_graph ∧
   ∃ out,
     (∀ fuel, (size sample_graph ≤ fuel)%nat →
        topological_sort elements fuel sample_raw = Return out)
     ∧ ∀ a, a ∈ sample_nodes → ∃ f, sample_name_mapping !! a = Some f ∧ f ∈ out)
  ∧ (has_cycle cyclic_graph ∧
     (∃ k out',
        (∀ fuel, peel elements (k + fuel) cyclic_graph [] =
                   peel elements fuel (peel_graph k cyclic_graph) out')
        ∧ 0 < size (peel_graph k cyclic_graph)
        ∧ leaf_nodes (peel_graph k cyclic_graph) = ∅)
     ∧ ∀ fuel, topological_sort elements fuel cyclic_raw = OutOfFuel).
Proof.
  split.
  - split; [exact sample_acyclic |].
    exact (proj1 (topological_sort_termination elements elements_perm
                    _ _ _ _ sample_build) sample_acyclic).
  - split; [exact cyclic_has_cycle |].
    exact (proj2 (topological_sort_termination elements elements_perm
                    _ _ _ _ cyclic_build) cyclic_has_cycle).
Defined.

Lemma find_priority_list_topological_order_witness :
  map_dependencies elements sample_files sample_py_files = Return sample_raw
  ∧ acyclic sample_graph
  ∧ ∃ ordered_files,
      (∀ fuel, (size sample_graph ≤ fuel)%nat →
         find_priority_list elements sample_files fuel sample_py_files
         = Return (ordered_files, sample_raw))
      ∧ (∀ fuel r,
           find_priority_list elements sample_files fuel sample_py_files = Return r →
           r = (ordered_files, sample_raw))
      ∧ NoDup ordered_files
      ∧ ∀ A B, edge sample_graph A B →
          ∃ fA fB, sample_name_mapping !! A = Some fA
                   ∧ sample_name_mapping !! B = Some fB
                   ∧ precedes ordered_files fB fA.
Proof.
  split; [exact sample_map |]. split; [exact sample_acyclic |].
  exact (find_priority_list_topological_order elements elements_perm sample_files
           _ _ _ _ _ sample_map sample_build sample_acyclic).
Defined.

Lemma file_without_imports_is_dropped_witness :
  "models/d/modular_d.py" ∈ "models/d/modular_d.py" :: sample_py_files
  ∧ (∃ tree, sample_files "models/d/modular_d.py" = Some tree
             ∧ extract_imports tree = ∅)
  ∧ find_priority_list elements sample_files 3
      ("models/d/modular_d.py" :: sample_py_files)
    = Return (sample_ordered, sample_raw)
  ∧ ("models/d/modular_d.py" ∉ sample_ordered)
  ∧ ("models/d/modular_d.py" ∉ sample_raw.*1).
Proof.
  assert ("models/d/modular_d.py" ∈ "models/d/modular_d.py" :: sample_py_files)
    as Hin by apply list_elem_of_here.
  assert (find_priority_list elements sample_files 3
            ("models/d/modular_d.py" :: sample_py_files)
          = Return (sample_ordered, sample_raw)) as Hrun
    by (vm_compute; reflexivity).
  split; [exact Hin |]. split; [eexists; split; [reflexivity | vm_compute; reflexivity] |].
  split; [exact Hrun |].
  refine (file_without_imports_is_dropped elements elements_perm sample_files
            _ _ _ _ _ _ Hin eq_refl _ Hrun).
  vm_compute. reflexivity.
Defined.


Lemma untracked_dependency_is_dropped_witness :
  map_dependencies elements sample_files sample_py_files = Return sample_raw
  ∧ build_graph elements sample_raw
    = Return (sample_nodes, sample_graph, sample_name_mapping)
  ∧ find_priority_list elements sample_files 3 sample_py_files
    = Return (sample_ordered, sample_raw)
  ∧ rawdict_get sample_raw "models/a/modular_a.py" = Some {[ "llama.modeling_llama" ]}
  ∧ (∀ fuel e, find_priority_list elements sample_files fuel sample_py_files ≠ Raise e)
  ∧ (∃ ordered_files,
       ∀ fuel, (size sample_graph ≤ fuel)%nat →
         find_priority_list elements sample_files fuel sample_py_files
         = Return (ordered_files, sample_raw))
  ∧ get_model_name_from_filename "llama.modeling_llama" = Return "llama"
  ∧ ("llama" ∉ sample_nodes)
  ∧ (∀ a deps, sample_graph !! a = Some deps → "llama" ∉ deps)
  ∧ (∃ D, rawdict_get sample_raw "models/a/modular_a.py" = Some D
          ∧ "llama.modeling_llama" ∈ D)
  ∧ (∀ fuel ordered_files raw,
       find_priority_list elements sample_files fuel sample_py_files
       = Return (ordered_files, raw) →
       ∃ D, rawdict_get raw "models/a/modular_a.py" = Some D
            ∧ "llama.modeling_llama" ∈ D)
  ∧ (∀ fuel,
       topological_sort elements fuel
         (add_dependency sample_raw "models/c/modular_c.py"
            "transformers.models.bert.modeling_bert")
       = topological_sort elements fuel sample_raw).
Proof.
  assert (∀ node, node ∈ sample_raw.*1 → ∃ a, node_name_of node = Return a) as Hk.
  { intros node H. unfold sample_raw in H. csimpl in H.
    repeat (apply elem_of_cons in H as [-> | H]);
      [eexists; vm_compute; reflexivity .. |].
    by apply not_elem_of_nil in H. }
  assert (∀ node deps m, (node, deps) ∈ sample_raw → m ∈ deps →
            ∃ n, get_model_name_from_filename m = Return n) as Hv.
  { intros node deps m H Hm. unfold sample_raw in H.
    repeat (apply elem_of_cons in H as [[= -> ->] | H]);
      [| | | by apply not_elem_of_nil in H];
      repeat (apply elem_of_union in Hm as [Hm | Hm]);
      apply elem_of_singleton in Hm as ->; eexists; vm_compute; reflexivity. }
  destruct (untracked_dependency_is_dropped elements elements_perm sample_files
              sample_py_files sample_raw sample_map Hk Hv)
    as (nodes & G & nm & Hb & Hnr & Hret & Hall & Hsame).
  rewrite sample_build in Hb. injection Hb as <- <- <-.
  assert ("llama" ∉ sample_nodes) as Hun.
  { unfold sample_nodes. set_solver. }
  assert ("bert" ∉ sample_nodes) as Hbert.
  { unfold sample_nodes. set_solver. }
  assert ("llama.modeling_llama"
          ∈ extract_imports
              (Other [ Import ["os"];
                       ImportFrom (Some "llama.modeling_llama") ["LlamaModel"] 2;
                       ImportFrom (Some "torch") ["nn"] 0 ])) as Hm.
  { apply elem_of_elements. vm_compute. apply list_elem_of_here. }
  assert ("models/a/modular_a.py" ∈ sample_py_files) as Hin.
  { unfold sample_py_files. set_solver. }
  assert ("models/c/modular_c.py" ∈ sample_raw.*1) as Hkey.
  { unfold sample_raw. csimpl. apply list_elem_of_here. }
  destruct (Hall "models/a/modular_a.py" _ "llama.modeling_llama" "llama"
              Hin eq_refl Hm eq_refl Hun) as (H1 & H2 & H3).
  split_and!; [exact sample_map | exact sample_build | vm_compute; reflexivity
              | vm_compute; reflexivity | exact Hnr | exact (Hret sample_acyclic)
              | reflexivity | exact Hun | exact H1 | exact H2 | exact H3 |].
  intros fuel.
  exact (Hsame "models/c/modular_c.py" "transformers.models.bert.modeling_bert"
           "bert" fuel Hkey eq_refl Hbert).
Defined.

(** ** Inputs on which three statements of the specification fail *)

Lemma resolver_strips_prefix_counterexample :
  In "modeling_" FILE_TYPE_PREFIXES
  ∧ "llama.py" ≠ ""
  ∧ get_model_name_from_filename ("modeling_" +:+ "llama.py") = Return "llama"
  ∧ get_model_name_from_filename ("modeling_" +:+ "llama.py") ≠ Return "llama.py"
  ∧ "auto/llama" ≠ ""
  ∧ get_model_name_from_filename ("modeling_" +:+ "auto/llama")
    = Raise (not_a_model_file "modeling_auto/llama")
  ∧ get_model_name_from_filename ("modeling_" +:+ "auto/llama") ≠ Return "auto/llama".
Proof.
  split_and!; try discriminate; try reflexivity.
  unfold FILE_TYPE_PREFIXES. simpl. tauto.
Qed.

Lemma image_processing_fast_variant_counterexample :
  "vit_fast" ≠ ""
  ∧ get_model_name_from_filename ("image_processing_" +:+ "vit_fast" +:+ "_fast")
    = Return "vit_fast"
  ∧ get_model_name_from_filename ("image_processing_" +:+ "vit_fast") = Return "vit"
  ∧ get_model_name_from_filename ("image_processing_" +:+ "vit_fast" +:+ "_fast")
    ≠ get_model_name_from_filename ("image_processing_" +:+ "vit_fast")
  ∧ "vit.py" ≠ ""
  ∧ get_model_name_from_filename ("image_processing_" +:+ "vit.py" +:+ "_fast")
    ≠ get_model_name_from_filename ("image_processing_" +:+ "vit.py")
  ∧ "x/modular" ≠ ""
  ∧ get_model_name_from_filename ("image_processing_" +:+ "x/modular" +:+ "_fast")
    ≠ get_model_name_from_filename ("image_processing_" +:+ "x/modular").
Proof. split_and!; try discriminate; reflexivity. Qed.


End Instances.

(** * Further properties of the code *)

(** ** More on the [str] methods *)

Section MoreStringFacts.

Implicit Types (s t sub : string) (c : Ascii.ascii).

Lemma slice_from_append_le k s t :
  (k ≤ String.length s)%nat → slice_from k (s +:+ t) = slice_from k s +:+ t.
Proof.
  revert s. induction k as [|k IH]; intros [|a s] Hk; simpl in *; try done; try lia.
  apply IH. lia.
Qed.

Lemma slice_from_append_ge k s t :
  slice_from (String.length s + k) (s +:+ t) = slice_from k t.
Proof. induction s as [|a s IH]; simpl; [by destruct k, t | done]. Qed.

Lemma slice_from_slice_from j k s : slice_from j (slice_from k s) = slice_from (k + j) s.
Proof.
  revert s. induction k as [|k IH]; intros [|a s]; simpl; try done.
  by rewrite slice_from_empty.
Qed.

Lemma length_slice_from k s : String.length (slice_from k s) = String.length s - k.
Proof. revert s. induction k as [|k IH]; intros [|a s]; simpl; try done; lia. Qed.

Lemma char_in_slice_to c i s : char_in c s = false → char_in c (slice_to i s) = false.
Proof.
  revert s; induction i as [|i IH]; intros [|a s]; simpl; try done.
  case_decide; [done |]. apply IH.
Qed.

Lemma prefix_char_in c sub s :
  String.prefix sub s = true → char_in c sub = true → char_in c s = true.
Proof.
  revert s. induction sub as [|a sub IH]; intros s; [done |].
  destruct s as [|b s]; [done |]. rewrite prefix_cons.
  destruct (Ascii.ascii_dec a b) as [<- | ?]; [|done].
  intros Hp. simpl char_in. case_decide; [done |]. by apply IH.
Qed.

(** A string that contains [sub] contains every character of [sub]. *)
Lemma str_find_char_in c sub s i :
  str_find sub s = Some i → char_in c sub = true → char_in c s = true.
Proof.
  revert i. induction s as [|a s IH]; intros i; rewrite str_find_unfold;
    destruct (str_startswith _ sub) eqn:Hp.
  - intros _. by apply prefix_char_in.
  - done.
  - intros _. by apply prefix_char_in.
  - destruct (str_find sub s) as [j|]; [|done]. intros _ Hc. simpl.
    case_decide; [done |]. by eapply IH.
Qed.

Lemma str_find_char_end c s t :
  char_in c s = false → str_find (String c "") (s +:+ String c t) = Some (String.length s).
Proof.
  induction s as [|a s IH]; simpl char_in.
  - intros _. rewrite str_find_unfold. unfold str_startswith. simpl String.append.
    rewrite prefix_cons. destruct (Ascii.ascii_dec c c); [by destruct t | done].
  - case_decide as Ha; [done |]. intros H.
    change (String a s +:+ String c t) with (String a (s +:+ String c t)).
    rewrite str_find_unfold. unfold str_startswith. rewrite prefix_cons.
    destruct (Ascii.ascii_dec c a) as [E|_]; [by symmetry in E |].
    by rewrite IH.
Qed.

Lemma str_find_char_inside c s t :
  char_in c s = true →
  ∃ i, str_find (String c "") (s +:+ t) = Some i ∧ i < String.length s.
Proof.
  induction s as [|a s IH]; simpl char_in; [done |].
  change (String a s +:+ t) with (String a (s +:+ t)).
  rewrite str_find_unfold. unfold str_startswith. rewrite prefix_cons.
  case_decide as Ha.
  - intros _. subst a. destruct (Ascii.ascii_dec c c); [|done].
    exists 0. split; [by destruct (s +:+ t) | simpl; lia].
  - intros [i [Hi Hlt]]%IH.
    destruct (Ascii.ascii_dec c a) as [E|_]; [by symmetry in E |].
    exists (S i). rewrite Hi. split; [done | simpl; lia].
Qed.

Lemma str_find_char_lt c s i :
  str_find (String c "") s = Some i → i < String.length s.
Proof.
  intros H. destruct (char_in c s) eqn:Hc.
  - destruct (str_find_char_inside c s "" Hc) as (j & Hj & Hlt).
    rewrite append_empty_r in Hj. congruence.
  - apply str_find_char in Hc. congruence.
Qed.

Lemma str_rfind_Some sub s i : str_find sub s = Some i → is_Some (str_rfind sub s).
Proof.
  revert i. induction s as [|a s IH]; intros i.
  - rewrite str_find_unfold. simpl. by destruct (str_startswith "" sub).
  - rewrite str_find_unfold, str_rfind_cons.
    destruct (str_rfind sub s) eqn:Hr; [by eexists |].
    destruct (str_startswith (String a s) sub); [by eexists |].
    destruct (str_find sub s) as [j|] eqn:Hf; [|done].
    destruct (IH j eq_refl) as [? ?]. congruence.
Qed.

Lemma startswith_char_cons c a s :
  str_startswith (String a s) (String c "") = bool_decide (c = a).
Proof.
  unfold str_startswith. rewrite prefix_cons.
  destruct (Ascii.ascii_dec c a).
  - rewrite bool_decide_eq_true_2 by done. by destruct s.
  - by rewrite bool_decide_eq_false_2.
Qed.

Lemma str_rfind_char_append c s t :
  char_in c t = false →
  str_rfind (String c "") (s +:+ t) = str_rfind (String c "") s.
Proof.
  intros Ht. induction s as [|a s IH].
  - simpl String.append. by rewrite (str_rfind_None _ t) by (by apply str_find_char).
  - change (String a s +:+ t) with (String a (s +:+ t)).
    by rewrite !str_rfind_cons, IH, !startswith_char_cons.
Qed.

(** What follows the last occurrence of a character does not contain it. *)
Lemma str_rfind_char_tail c s :
  match str_rfind (String c "") s with
  | Some i => i < String.length s ∧ char_in c (slice_from (S i) s) = false
  | None => char_in c s = false
  end.
Proof.
  induction s as [|a s IH]; [done |].
  rewrite str_rfind_cons, startswith_char_cons.
  destruct (str_rfind (String c "") s) as [i|].
  - destruct IH as [Hlt Hc]. split; [simpl; lia | done].
  - case_bool_decide as Ha.
    + split; [simpl; lia | done].
    + simpl. by rewrite decide_False by congruence.
Qed.

Lemma basename_no_slash_inside s : char_in "/" (basename s) = false.
Proof.
  unfold basename. pose proof (str_rfind_char_tail "/" s) as H.
  destruct (str_rfind "/" s) as [i|]; [by destruct H | done].
Qed.

Lemma basename_append s t :
  char_in "/" t = false → ∃ b, basename (s +:+ t) = b +:+ t.
Proof.
  intros Ht. unfold basename. rewrite str_rfind_char_append by done.
  pose proof (str_rfind_char_tail "/" s) as H.
  destruct (str_rfind "/" s) as [i|].
  - destruct H as [Hlt _]. exists (slice_from (S i) s).
    apply slice_from_append_le. lia.
  - by exists s.
Qed.

Lemma str_split_go_unfold r sep s :
  str_split_go (S r) sep s =
    match str_find sep s with
    | Some i => slice_to i s :: str_split_go r sep (slice_from (i + String.length sep) s)
    | None => [s]
    end.
Proof. done. Qed.

Lemma str_split_go_nonempty r sep s : str_split_go r sep s ≠ [].
Proof.
  destruct r as [|r]; [done |]. rewrite str_split_go_unfold.
  by destruct (str_find sep s).
Qed.

Lemma list_last_cons (x : string) (l : list string) :
  l ≠ [] → list_last (x :: l) = list_last l.
Proof. by destruct l. Qed.

(** The last field of [split] on a character is a tail of the string and
    does not contain the character. *)
Lemma split_last_tail c r s :
  String.length s < r →
  ∃ k, list_last (str_split_go r (String c "") s) = slice_from k s
       ∧ char_in c (slice_from k s) = false.
Proof.
  revert s. induction r as [|r IH]; intros s Hr; [lia |].
  rewrite str_split_go_unfold.
  destruct (str_find (String c "") s) as [i|] eqn:Hf.
  - apply str_find_char_lt in Hf as Hlt.
    rewrite list_last_cons by apply str_split_go_nonempty.
    destruct (IH (slice_from (i + String.length (String c "")) s)) as (k & Hk & Hc).
    { rewrite length_slice_from. simpl. lia. }
    rewrite slice_from_slice_from in Hk, Hc. by eexists.
  - exists 0. split; [done |]. by apply str_find_char.
Qed.

Lemma split_last_append c r s t :
  String.length s < r →
  char_in c t = false →
  list_last (str_split_go r (String c "") (s +:+ String c t)) = t.
Proof.
  revert s. induction r as [|r IH]; intros s Hr Ht; [lia |].
  rewrite str_split_go_unfold.
  destruct (char_in c s) eqn:Hs.
  - destruct (str_find_char_inside c s (String c t) Hs) as (i & -> & Hlt).
    rewrite list_last_cons by apply str_split_go_nonempty.
    rewrite slice_from_append_le by (simpl; lia).
    apply IH; [|done]. rewrite length_slice_from. simpl. lia.
  - rewrite str_find_char_end by done.
    rewrite list_last_cons by apply str_split_go_nonempty.
    replace (slice_from _ (s +:+ String c t)) with t.
    + destruct r as [|r]; [done |].
      by rewrite str_split_go_unfold, (proj2 (str_find_char c t) Ht).
    + replace (String.length s + String.length (String c ""))
        with (String.length (s +:+ String c "")) by (by rewrite length_append).
      replace (s +:+ String c t) with ((s +:+ String c "") +:+ t)
        by (by rewrite append_assoc).
      by rewrite slice_from_append.
Qed.

(** The token the prefixes are tried on never contains a dot or a slash. *)
Lemma final_token_plain_inside filename :
  char_in "." (final_token filename) = false
  ∧ char_in "/" (final_token filename) = false.
Proof.
  unfold final_token.
  set (m := basename (if str_endswith filename ".py" then _ else _)).
  assert (char_in "/" m = false) as Hm by apply basename_no_slash_inside.
  unfold str_split.
  destruct (split_last_tail "." (S (String.length m)) m) as (k & -> & Hk); [lia |].
  split; [done | by apply char_in_slice_from].
Qed.

Lemma endswith_append_long s t suffix :
  (String.length suffix ≤ String.length t)%nat →
  str_endswith (s +:+ t) suffix = str_endswith t suffix.
Proof.
  intros H. unfold str_endswith. rewrite length_append.
  replace (String.length s + String.length t - String.length suffix)
    with (String.length s + (String.length t - String.length suffix)) by lia.
  rewrite slice_from_append_ge.
  by rewrite !(proj2 (Nat.leb_le _ _)) by lia.
Qed.

End MoreStringFacts.

(** ** More on NameResolver *)

Section MoreNameResolver.

Implicit Types (filename name P S D Q X : string).

Lemma prefixes_long P : In P FILE_TYPE_PREFIXES → (3 ≤ String.length P)%nat.
Proof.
  unfold FILE_TYPE_PREFIXES. simpl.
  intros H; repeat destruct H as [<- | H]; simpl; lia.
Qed.

Lemma final_token_path D X :
  is_dir_part D → char_in "." X = false → char_in "/" X = false →
  final_token (D +:+ X +:+ ".py") = X.
Proof.
  intros HD Hd Hs. unfold final_token.
  replace (D +:+ X +:+ ".py") with ((D +:+ X) +:+ ".py") by (by rewrite !append_assoc).
  rewrite endswith_append, (slice_to_neg_append _ ".py").
  destruct HD as [-> | [D' ->]].
  - rewrite basename_no_slash by done. by apply split_no_dot.
  - rewrite append_assoc, basename_dir by done. by apply split_no_dot.
Qed.

Lemma final_token_import Q X :
  is_package_part Q → char_in "." X = false → char_in "/" X = false →
  (3 ≤ String.length X)%nat →
  final_token (Q +:+ X) = X.
Proof.
  intros [-> | [Q' ->]] Hd Hs Hlen; [by apply final_token_plain |].
  unfold final_token.
  rewrite endswith_append_long by (simpl; lia).
  rewrite endswith_py_no_dot by done.
  rewrite append_assoc. change ("." +:+ X) with (String "." X).
  destruct (basename_append Q' (String "." X)) as [b ->].
  { by simpl. }
  unfold str_split. apply split_last_append; [rewrite length_append; lia | done].
Qed.

(** The source comments name the two spellings of a module: a file path with
    its extension ("if it's a full path, extract last part") and a dotted
    import path ("in Python import form").  Both resolve like the bare module
    name. *)
Theorem resolver_path_and_import_forms D Q P S :
  In P FILE_TYPE_PREFIXES →
  str_contains "." S = false →
  str_contains "/" S = false →
  is_dir_part D →
  is_package_part Q →
  get_model_name_from_filename (D +:+ P +:+ S +:+ ".py")
  = get_model_name_from_filename (P +:+ S)
  ∧ get_model_name_from_filename (Q +:+ P +:+ S)
    = get_model_name_from_filename (P +:+ S)
  ∧ ∃ name, get_model_name_from_filename (P +:+ S) = Return name.
Proof.
  intros HP Hd Hs HD HQ. rewrite str_contains_char in Hd, Hs.
  destruct (prefixes_plain P HP) as [Hd' Hs'].
  assert (char_in "." (P +:+ S) = false) as HdX by (by rewrite char_in_append, Hd', Hd).
  assert (char_in "/" (P +:+ S) = false) as HsX by (by rewrite char_in_append, Hs', Hs).
  rewrite (resolve_prefixed P S HP Hd Hs). split_and!.
  - apply resolve_token; [done |].
    replace (D +:+ P +:+ S +:+ ".py") with (D +:+ (P +:+ S) +:+ ".py")
      by (by rewrite !append_assoc).
    by apply final_token_path.
  - apply resolve_token; [done |]. apply final_token_import; [done .. |].
    rewrite length_append. pose proof (prefixes_long P HP). lia.
  - by eexists.
Qed.

Lemma resolve_Return_token filename name :
  get_model_name_from_filename filename = Return name →
  ∃ P, In P FILE_TYPE_PREFIXES
       ∧ (final_token filename = P +:+ name
          ∨ (P = "image_processing_"
             ∧ final_token filename = P +:+ name +:+ "_fast")).
Proof.
  unfold get_model_name_from_filename.
  destruct (List.find _ FILE_TYPE_PREFIXES) as [P|] eqn:Hfind; [|done].
  apply List.find_some in Hfind as [HP Hstart].
  apply startswith_split in Hstart.
  set (rest := slice_from (String.length P) (final_token filename)) in *.
  clearbody rest. rewrite Hstart, replace_first_prefix.
  exists P. split; [done |].
  destruct (String.eqb P "image_processing_" && str_endswith rest "_fast") eqn:Hc.
  - apply andb_true_iff in Hc as [HPi Hfast].
    apply String.eqb_eq in HPi. apply endswith_split in Hfast.
    simplify_eq. right. split; [done |]. by rewrite Hfast at 1.
  - simplify_eq. by left.
Qed.

(** Whatever the resolver returns can be put back behind a recognized prefix
    to give the token it was read from; for the image-processing prefix a
    ["_fast"] ending may have been dropped. *)
Theorem resolver_name_rebuilds_token filename name :
  get_model_name_from_filename filename = Return name →
  ∃ P, In P FILE_TYPE_PREFIXES
       ∧ (final_token filename = P +:+ name
          ∨ (P = "image_processing_"
             ∧ final_token filename = P +:+ name +:+ "_fast")).
Proof. apply resolve_Return_token. Qed.

(** A resolved name never contains a dot or a slash. *)
Theorem resolver_name_is_plain filename name :
  get_model_name_from_filename filename = Return name →
  str_contains "." name = false ∧ str_contains "/" name = false.
Proof.
  intros (P & _ & Htok)%resolve_Return_token.
  destruct (final_token_plain_inside filename) as [Hd Hs].
  rewrite !str_contains_char.
  destruct Htok as [Htok | [_ Htok]]; rewrite Htok, !char_in_append in Hd, Hs;
    apply orb_false_iff in Hd as [_ Hd], Hs as [_ Hs];
    try apply orb_false_iff in Hd as [Hd _];
    try apply orb_false_iff in Hs as [Hs _]; done.
Qed.

End MoreNameResolver.

(** ** More on ImportExtractor *)

Section MoreImportExtractor.

(** Both markers of the filter contain a dot, so every module path that is
    collected has one: the module of a relative import from the same
    package, such as [modeling_llama] in [from .modeling_llama import X], is
    never collected. *)
Theorem extracted_module_has_dot (tree : ast_node) (m : string) :
  m ∈ extract_imports tree → str_contains "." m = true.
Proof.
  unfold extract_imports. rewrite elem_of_foldl_visit.
  intros [?%not_elem_of_empty | (_ & _ & _ & _ & Href)]; [done |].
  rewrite str_contains_char. unfold internal_reference, str_contains in Href.
  destruct Href as [H | H].
  - destruct (str_find ".modeling_" m) as [i|] eqn:Hf; [|done].
    by apply (str_find_char_in "." _ _ _ Hf).
  - destruct (str_find "transformers.models" m) as [i|] eqn:Hf; [|done].
    by apply (str_find_char_in "." _ _ _ Hf).
Qed.


End MoreImportExtractor.

(** ** Exceptions of a comprehension *)

Section MoreOutcome.

Context {A B : Type}.
Implicit Types (f : A → outcome B) (l : list A).

Lemma traverse_Raise f l e : traverse f l = Raise e → ∃ x, x ∈ l ∧ f x = Raise e.
Proof.
  induction l as [|x l IH]; simpl; [done |].
  destruct (f x) as [y | e' |] eqn:Hx; simpl; [| |done].
  - destruct (traverse f l) as [ys | e' |]; simpl; [done | |done].
    intros [= ->]. destruct IH as (z & Hz & Hfz); [done |].
    exists z. split; [by apply list_elem_of_further | done].
  - intros [= ->]. exists x. split; [apply list_elem_of_here | done].
Qed.

Lemma traverse_OutOfFuel f l : traverse f l = OutOfFuel → ∃ x, x ∈ l ∧ f x = OutOfFuel.
Proof.
  induction l as [|x l IH]; simpl; [done |].
  destruct (f x) as [y | e' |] eqn:Hx; simpl; [|done |].
  - destruct (traverse f l) as [ys | e' |]; simpl; [done | done |].
    intros _. destruct IH as (z & Hz & Hfz); [done |].
    exists z. split; [by apply list_elem_of_further | done].
  - intros _. exists x. split; [apply list_elem_of_here | done].
Qed.

Lemma traverse_Return_elem f l ys x :
  traverse f l = Return ys → x ∈ l → ∃ y, f x = Return y.
Proof.
  intros HF%traverse_Return [i Hi]%list_elem_of_lookup.
  destruct (Forall2_lookup_l _ _ _ _ _ HF Hi) as (y & _ & Hy). by exists y.
Qed.

End MoreOutcome.

(** ** Exceptions of the build phase *)

Section MoreBuild.

Variable set_iter : gset string → list string.
Hypothesis set_iter_perm : ∀ X, set_iter X ≡ₚ elements X.

Implicit Types (G : gmap string (gset string)) (nm : gmap string string).
Implicit Types (nodes : gset string) (items d : rawdict) (a b node m : string).

#[local] Set Default Proof Using "All".

Lemma node_name_of_cases node :
  (str_contains "modular_" node = false ∧ node_name_of node = Raise IndexError)
  ∨ (str_contains "modular_" node = true ∧ ∃ a, node_name_of node = Return a).
Proof.
  unfold str_contains, node_name_of, str_rsplit1.
  destruct (str_find "modular_" node) as [i|] eqn:Hf.
  - right. split; [done |].
    destruct (str_rfind_Some _ _ _ Hf) as [j ->]. by eexists.
  - left. split; [done |]. by rewrite (str_rfind_None _ _ Hf).
Qed.

Lemma resolver_cases m :
  (∃ n, get_model_name_from_filename m = Return n)
  ∨ get_model_name_from_filename m = Raise (not_a_model_file m).
Proof.
  unfold get_model_name_from_filename.
  destruct (List.find _ FILE_TYPE_PREFIXES); [left; by eexists | by right].
Qed.

Lemma tracked_nodes_IndexError d node :
  node ∈ d.*1 → str_contains "modular_" node = false →
  tracked_nodes d = Raise IndexError.
Proof.
  intros Hin Hc. unfold tracked_nodes.
  destruct (traverse node_name_of (d.*1)) as [names | e |] eqn:Ht; simpl.
  - destruct (traverse_Return_elem _ _ _ _ Ht Hin) as [a Ha].
    destruct (node_name_of_cases node) as [[_ ?] | [? _]]; congruence.
  - apply traverse_Raise in Ht as (x & _ & Hx).
    destruct (node_name_of_cases x) as [[_ ?] | [_ [? ?]]]; congruence.
  - apply traverse_OutOfFuel in Ht as (x & _ & Hx).
    destruct (node_name_of_cases x) as [[_ ?] | [_ [? ?]]]; congruence.
Qed.

Lemma build_loop_ValueError nodes items G nm :
  (∀ node, node ∈ items.*1 → ∃ a, node_name_of node = Return a) →
  (∃ node deps m, (node, deps) ∈ items ∧ m ∈ deps
                  ∧ get_model_name_from_filename m = Raise (not_a_model_file m)) →
  ∃ node deps m,
    (node, deps) ∈ items ∧ m ∈ deps
    ∧ get_model_name_from_filename m = Raise (not_a_model_file m)
    ∧ build_loop set_iter nodes items G nm = Raise (not_a_model_file m).
Proof.
  revert G nm. induction items as [|[node deps] items IH]; intros G nm Hk Hbad.
  { destruct Hbad as (? & ? & ? & ?%not_elem_of_nil & _). done. }
  destruct (Hk node) as [a Ha]; [apply list_elem_of_here |].
  simpl. rewrite Ha. simpl.
  destruct (traverse get_model_name_from_filename (set_iter deps))
    as [names | e |] eqn:Ht; simpl.
  - destruct (IH (<[a:=filter_deps nodes a (list_to_set names)]> G) (<[a:=node]> nm))
      as (node' & deps' & m' & Hin & Hm & Hbad' & Hr).
    + intros n Hn. apply Hk. by apply list_elem_of_further.
    + destruct Hbad as (node0 & deps0 & m0 & Hin & Hm & Hr).
      apply elem_of_cons in Hin as [[= -> ->] | Hin]; [|by exists node0, deps0, m0].
      destruct (traverse_Return_elem _ _ _ m0 Ht) as [n Hn]; [|congruence].
      by rewrite set_iter_perm, elem_of_elements.
    + exists node', deps', m'.
      split_and!; [by apply list_elem_of_further | done | done | done].
  - apply traverse_Raise in Ht as (x & Hx & Hfx).
    assert (e = not_a_model_file x) as ->
      by (destruct (resolver_cases x) as [[? ?] | ?]; congruence).
    exists node, deps, x. split_and!; [apply list_elem_of_here | | done | done].
    by rewrite set_iter_perm, elem_of_elements in Hx.
  - apply traverse_OutOfFuel in Ht as (x & _ & Hfx).
    destruct (resolver_cases x) as [[? ?] | ?]; congruence.
Qed.

(** The loop leaves alone the entries of the names none of its items has. *)
Lemma build_loop_untouched nodes items G nm G' nm' a :
  build_loop set_iter nodes items G nm = Return (G', nm') →
  (∀ node, node ∈ items.*1 → node_name_of node ≠ Return a) →
  G' !! a = G !! a ∧ nm' !! a = nm !! a.
Proof.
  revert G nm. induction items as [|[node raw] items IH]; intros G nm.
  - by intros [= <- <-] _.
  - intros H Hno.
    apply (build_loop_cons set_iter set_iter_perm) in H
      as (a0 & names & Ha0 & Hn & H).
    destruct (IH _ _ H) as [-> ->].
    { intros n Hn'. apply Hno. by apply list_elem_of_further. }
    assert (a0 ≠ a).
    { intros ->. apply (Hno node); [apply list_elem_of_here | done]. }
    by rewrite !lookup_insert_ne.
Qed.

(** The entry of a node name that one key only has. *)
Lemma build_loop_lookup nodes items G nm G' nm' f (D : gset string) a :
  build_loop set_iter nodes items G nm = Return (G', nm') →
  NoDup (items.*1) →
  (f, D) ∈ items →
  node_name_of f = Return a →
  (∀ g, g ∈ items.*1 → node_name_of g = Return a → g = f) →
  ∃ names,
    traverse get_model_name_from_filename (set_iter D) = Return names
    ∧ G' !! a = Some (filter_deps nodes a (list_to_set names))
    ∧ nm' !! a = Some f.
Proof.
  revert G nm. induction items as [|[node raw] items IH]; intros G nm.
  { by intros _ _ ?%not_elem_of_nil. }
  intros H Hnd Hin Ha Huniq.
  apply (build_loop_cons set_iter set_iter_perm) in H
    as (a0 & names & Ha0 & Hn & H).
  apply NoDup_cons in Hnd as [Hnotin Hnd].
  apply elem_of_cons in Hin as [[= <- <-] | Hin].
  - assert (a0 = a) as -> by congruence.
    destruct (build_loop_untouched _ _ _ _ _ _ a H) as [HG' Hnm'].
    { intros g Hg Hga. apply Hnotin.
      by rewrite <- (Huniq g (list_elem_of_further _ _ _ Hg) Hga). }
    exists names. by rewrite HG', Hnm', !lookup_insert_eq.
  - eapply IH; [done | done | done | done |].
    intros g Hg. apply Huniq. by apply list_elem_of_further.
Qed.

Lemma rawdict_get_NoDup d node (D : gset string) :
  NoDup (d.*1) → (node, D) ∈ d → rawdict_get d node = Some D.
Proof.
  induction d as [|[k v] d IH]; csimpl; [by intros _ ?%not_elem_of_nil |].
  intros [Hk Hnd]%NoDup_cons [[= -> ->] | Hin]%elem_of_cons.
  - by rewrite decide_True.
  - rewrite decide_False; [by apply IH |].
    intros ->. apply Hk. apply list_elem_of_fmap. by exists (node, D).
Qed.

End MoreBuild.

(** ** More on [topological_sort] *)

Section MoreTopologicalSort.

Variable set_iter : gset string → list string.
Hypothesis set_iter_perm : ∀ X, set_iter X ≡ₚ elements X.

Implicit Types (G : gmap string (gset string)) (nm : gmap string string).
Implicit Types (nodes : gset string) (d : rawdict) (a b f g : string).
Implicit Types (fuel : nat) (names out : list string).

#[local] Set Default Proof Using "All".

Lemma peel_prefix fuel G out res :
  peel set_iter fuel G out = Return res → ∃ rest, res = (out ++ rest)%list.
Proof.
  revert G out. induction fuel as [|fuel IH]; intros G out;
    rewrite (peel_unfold set_iter set_iter_perm); case_decide; try done.
  - intros [= <-]. exists []. by rewrite app_nil_r.
  - intros (rest & ->)%IH. eexists. by rewrite <- app_assoc.
  - intros [= <-]. exists []. by rewrite app_nil_r.
Qed.

(** The keys of the dictionary decide what the returned list is made of: it
    has no repetition, holds keys only, holds no two keys with the same node
    name, and for every key holds a key with the same node name. *)
Theorem sorted_files_are_distinct_keys fuel d out :
  topological_sort set_iter fuel d = Return out →
  NoDup out
  ∧ (∀ f, f ∈ out → f ∈ d.*1)
  ∧ (∀ f g a, f ∈ out → g ∈ out →
       node_name_of f = Return a → node_name_of g = Return a → f = g)
  ∧ (∀ f, f ∈ d.*1 → ∃ g, g ∈ out ∧ node_name_of g = node_name_of f).
Proof.
  intros Hsort.
  destruct (topological_sort_Return set_iter set_iter_perm _ _ _ Hsort)
    as (nodes & G & nm & names & Hb & Hp & HF).
  pose proof (peel_inv_result set_iter set_iter_perm _ G G [] names
                (peel_inv_init G) Hp) as Hinv.
  destruct (build_graph_spec set_iter set_iter_perm _ _ _ _ Hb)
    as (_ & HG & Hdnm & _ & Hnm).
  assert (∀ f, f ∈ out → ∃ a, nm !! a = Some f) as Hout.
  { intros f [i Hi]%list_elem_of_lookup.
    destruct (Forall2_lookup_r _ _ _ _ _ HF Hi) as (a & _ & Ha). by exists a. }
  split_and!.
  - eapply (sorted_files_NoDup set_iter set_iter_perm); [done | | done].
    apply (inv_nodup _ _ _ Hinv).
  - intros f [a Ha]%Hout. by destruct (Hnm a f Ha).
  - intros f g a [af Haf]%Hout [ag Hag]%Hout Hf Hg.
    destruct (Hnm _ _ Haf) as [_ Hf'], (Hnm _ _ Hag) as [_ Hg'].
    assert (af = ag) as -> by congruence. congruence.
  - intros f Hf.
    destruct (build_graph_keys_named set_iter set_iter_perm _ _ _ _ Hb f Hf)
      as (a & Ha & Hanodes).
    assert (a ∈ names) as [i Hi]%list_elem_of_lookup.
    { apply (inv_out _ _ _ Hinv). rewrite HG, dom_empty_L. set_solver. }
    destruct (Forall2_lookup_l _ _ _ _ _ HF Hi) as (g & Hg & Hag).
    exists g. split; [by eapply list_elem_of_lookup_2 |].
    destruct (Hnm _ _ Hag) as [_ Hg']. congruence.
Qed.

(** The docstring of [find_priority_list]: "modular models that DON'T depend
    on other modular models will be higher in the topological order".  A
    node with an empty dependency set in the filtered graph has its file
    before the file of every node with a non-empty one. *)
Theorem independent_files_come_first fuel d nodes G nm out a b (deps : gset string) :
  build_graph set_iter d = Return (nodes, G, nm) →
  topological_sort set_iter fuel d = Return out →
  G !! a = Some ∅ →
  G !! b = Some deps →
  deps ≠ ∅ →
  ∃ fa fb, nm !! a = Some fa ∧ nm !! b = Some fb ∧ precedes out fa fb.
Proof.
  intros Hb Hsort Ha Hbd Hne.
  destruct (topological_sort_Return set_iter set_iter_perm _ _ _ Hsort)
    as (nodes' & G' & nm' & names & Hb' & Hp & HF).
  rewrite Hb in Hb'. injection Hb' as <- <- <-.
  pose proof (peel_inv_result set_iter set_iter_perm _ G G [] names
                (peel_inv_init G) Hp) as Hinv.
  assert (∃ rest, names = (set_iter (leaf_nodes G) ++ rest)%list) as [rest Hnames].
  { rewrite (peel_unfold set_iter set_iter_perm) in Hp.
    rewrite decide_True in Hp.
    - destruct fuel as [|fuel]; [done |]. by apply peel_prefix in Hp.
    - destruct (decide (size G = 0)) as [E | ?]; [|lia].
      apply map_size_empty_iff in E. by rewrite E in Ha. }
  assert (a ∈ set_iter (leaf_nodes G)) as [i Hi]%list_elem_of_lookup.
  { by apply (elem_of_set_iter set_iter set_iter_perm), elem_of_leaf_nodes. }
  assert (b ∈ names) as [j Hj]%list_elem_of_lookup.
  { apply (inv_out _ _ _ Hinv). rewrite dom_empty_L.
    split; [apply elem_of_dom; by eexists | set_solver]. }
  destruct (sorted_files_precedes nm names out b a HF) as (fb & fa & ? & ? & ?);
    [|by exists fa, fb].
  exists i, j. split_and!; [| done |].
  - rewrite Hnames. by apply lookup_app_l_Some.
  - destruct (decide (j < length (set_iter (leaf_nodes G)))) as [Hlt | ?].
    + rewrite Hnames, lookup_app_l in Hj by done.
      apply list_elem_of_lookup_2, (elem_of_set_iter set_iter set_iter_perm),
        elem_of_leaf_nodes in Hj.
      congruence.
    + apply lookup_lt_Some in Hi. lia.
Qed.

(** The filtered graph, exactly.  For a key [f] that alone has the node name
    [a], the dependency set recorded for [a] holds the resolved names of the
    module paths of [f] that are tracked nodes other than [a], and nothing
    else; a module of any recognized kind, not only a modeling file, gives an
    edge. *)
Theorem filtered_graph_edges d nodes G nm f (D : gset string) a :
  build_graph set_iter d = Return (nodes, G, nm) →
  NoDup (d.*1) →
  (f, D) ∈ d →
  node_name_of f = Return a →
  (∀ g, g ∈ d.*1 → node_name_of g = Return a → g = f) →
  nm !! a = Some f
  ∧ ∃ deps,
      G !! a = Some deps
      ∧ ∀ b, b ∈ deps ↔
          (b ∈ nodes ∧ b ≠ a
           ∧ ∃ m, m ∈ D ∧ get_model_name_from_filename m = Return b).
Proof.
  intros Hb Hnd Hin Ha Huniq. unfold build_graph in Hb.
  apply bind_Return in Hb as (nodes' & Hnodes & Hb).
  apply bind_Return in Hb as ([G' nm'] & Hloop & [= <- <- <-]).
  destruct (build_loop_lookup set_iter set_iter_perm _ _ _ _ _ _ f D a
              Hloop Hnd Hin Ha Huniq) as (names & Hn & HG & Hnm).
  split; [done |]. eexists. split; [exact HG |].
  intros b. rewrite elem_of_filter_deps, elem_of_list_to_set.
  apply traverse_Return in Hn.
  split.
  - intros ([i Hi]%list_elem_of_lookup & ? & ?). split_and!; [done | done |].
    destruct (Forall2_lookup_r _ _ _ _ _ Hn Hi) as (m & Hm & Hmb).
    exists m. split; [|done].
    by apply list_elem_of_lookup_2, (elem_of_set_iter set_iter set_iter_perm) in Hm.
  - intros (? & ? & m & Hm & Hmb). split_and!; [| done | done].
    apply (elem_of_set_iter set_iter set_iter_perm), list_elem_of_lookup in Hm as [i Hi].
    destruct (Forall2_lookup_l _ _ _ _ _ Hn Hi) as (b' & Hb' & Hmb').
    assert (b' = b) as -> by congruence. by eapply list_elem_of_lookup_2.
Qed.

(** A key without ["modular_"] in it makes the sort raise [IndexError],
    before any graph is built and whatever the iteration budget. *)
Theorem key_without_modular_raises fuel d f :
  f ∈ d.*1 →
  str_contains "modular_" f = false →
  topological_sort set_iter fuel d = Raise IndexError.
Proof.
  intros Hin Hc. unfold topological_sort, build_graph.
  by rewrite (tracked_nodes_IndexError set_iter set_iter_perm d f Hin Hc).
Qed.

End MoreTopologicalSort.

(** ** More on [map_dependencies] and [find_priority_list] *)

Section MoreFindPriorityList.

Variable set_iter : gset string → list string.
Hypothesis set_iter_perm : ∀ X, set_iter X ≡ₚ elements X.
Variable parse_file : string → option ast_node.

Implicit Types (d : rawdict) (f g m : string) (fuel : nat).
Implicit Types (py_files : list string).

#[local] Set Default Proof Using "All".

Lemma map_dependencies_loop_total py_files (d0 : rawdict) :
  (∀ g, g ∈ py_files → is_Some (parse_file g)) →
  ∃ d, map_dependencies_loop set_iter parse_file py_files d0 = Return d.
Proof.
  revert d0. induction py_files as [|f py_files IH]; intros d0 H; [by eexists |].
  destruct (H f) as [tree Hp]; [apply list_elem_of_here |].
  simpl. unfold extract_classes_and_imports. rewrite Hp. simpl.
  apply IH. intros g Hg. apply H. by apply list_elem_of_further.
Qed.

Lemma map_dependencies_loop_ParseFailure (l1 : list string) f (l2 : list string)
    (d0 : rawdict) :
  (∀ g, g ∈ l1 → is_Some (parse_file g)) →
  parse_file f = None →
  map_dependencies_loop set_iter parse_file (l1 ++ f :: l2) d0
  = Raise (ParseFailure f).
Proof.
  revert d0. induction l1 as [|g l1 IH]; intros d0 H Hf; simpl.
  - unfold extract_classes_and_imports. by rewrite Hf.
  - destruct (H g) as [tree Hp]; [apply list_elem_of_here |].
    unfold extract_classes_and_imports at 1. rewrite Hp. simpl.
    apply IH; [|done]. intros g' Hg'. apply H. by apply list_elem_of_further.
Qed.

(** The raw map.  Its keys are pairwise distinct; a file has an entry
    exactly when it is in the input and has at least one qualifying import,
    and the entry is the set the extractor returns for it, however often the
    file is listed. *)
Theorem raw_dependency_map_entries py_files d :
  map_dependencies set_iter parse_file py_files = Return d →
  NoDup (d.*1)
  ∧ ∀ f D, rawdict_get d f = Some D ↔
      f ∈ py_files
      ∧ ∃ tree, parse_file f = Some tree ∧ D = extract_imports tree ∧ D ≠ ∅.
Proof.
  intros H.
  destruct (map_dependencies_spec set_iter set_iter_perm parse_file _ _ H)
    as (Hnd & _ & Hget).
  by split.
Qed.

(** A file that cannot be opened or parsed aborts the whole call with the
    exception of the first such file, before anything is sorted. *)
Theorem unparsable_file_raises (l1 : list string) f (l2 : list string) fuel :
  (∀ g, g ∈ l1 → is_Some (parse_file g)) →
  parse_file f = None →
  find_priority_list set_iter parse_file fuel (l1 ++ f :: l2)
  = Raise (ParseFailure f).
Proof.
  intros H Hf. unfold find_priority_list, map_dependencies.
  by rewrite map_dependencies_loop_ParseFailure.
Qed.

(** A file with a qualifying import whose path has no ["modular_"] aborts
    the call with [IndexError]. *)
Theorem path_without_modular_raises py_files f tree fuel :
  (∀ g, g ∈ py_files → is_Some (parse_file g)) →
  f ∈ py_files →
  parse_file f = Some tree →
  extract_imports tree ≠ ∅ →
  str_contains "modular_" f = false →
  find_priority_list set_iter parse_file fuel py_files = Raise IndexError.
Proof.
  intros Hparse Hin Hp Hne Hc.
  destruct (map_dependencies_loop_total py_files [] Hparse) as [d Hd].
  rewrite (find_priority_list_unfold set_iter set_iter_perm parse_file _ _ _ Hd).
  destruct (map_dependencies_spec set_iter set_iter_perm parse_file _ _ Hd)
    as (_ & _ & Hget).
  unfold topological_sort, build_graph.
  rewrite (tracked_nodes_IndexError set_iter set_iter_perm d f); [done | | done].
  apply elem_of_keys. exists (extract_imports tree). apply Hget.
  split; [done |]. by exists tree.
Qed.

(** A qualifying import that the resolver rejects, such as
    [from transformers.models.auto import AutoModel], aborts the call with
    the [ValueError] of one such import. *)
Theorem unresolvable_import_raises py_files f tree m :
  (∀ g, g ∈ py_files → is_Some (parse_file g)) →
  (∀ g, g ∈ py_files → str_contains "modular_" g = true) →
  f ∈ py_files →
  parse_file f = Some tree →
  m ∈ extract_imports tree →
  get_model_name_from_filename m = Raise (not_a_model_file m) →
  ∃ g tree' m',
    g ∈ py_files
    ∧ parse_file g = Some tree'
    ∧ m' ∈ extract_imports tree'
    ∧ get_model_name_from_filename m' = Raise (not_a_model_file m')
    ∧ ∀ fuel, find_priority_list set_iter parse_file fuel py_files
              = Raise (not_a_model_file m').
Proof.
  intros Hparse Hmod Hin Hp Hm Hbad.
  destruct (map_dependencies_loop_total py_files [] Hparse) as [d Hd].
  destruct (map_dependencies_spec set_iter set_iter_perm parse_file _ _ Hd)
    as (Hnd & _ & Hget).
  assert (∀ node, node ∈ d.*1 → ∃ a, node_name_of node = Return a) as Hk.
  { intros node [D HD]%elem_of_keys. apply Hget in HD as [Hnode _].
    destruct (node_name_of_cases set_iter set_iter_perm node) as [[Hc _] | [_ ?]];
      [|done].
    rewrite (Hmod node Hnode) in Hc. done. }
  destruct (traverse_total node_name_of (d.*1) Hk) as [names Hnames].
  destruct (build_loop_ValueError set_iter set_iter_perm (list_to_set names) d ∅ ∅ Hk)
    as (g & D & m' & Hg & Hm' & Hbad' & Hloop).
  { exists f, (extract_imports tree), m. split_and!; [| done | done].
    apply rawdict_get_elem, Hget. split; [done |]. exists tree.
    split_and!; [done | done | set_solver]. }
  apply (rawdict_get_NoDup set_iter set_iter_perm) in Hg; [|done].
  apply Hget in Hg as (Hgin & tree' & Hp' & -> & _).
  exists g, tree', m'. split_and!; [done .. |]. intros fuel.
  rewrite (find_priority_list_unfold set_iter set_iter_perm parse_file _ _ _ Hd).
  unfold topological_sort, build_graph, tracked_nodes.
  rewrite Hnames. simpl. by rewrite Hloop.
Qed.

End MoreFindPriorityList.

(** ** The further properties on the sample inputs *)

Lemma resolver_path_and_import_forms_witness :
  is_dir_part "src/transformers/models/llama/"
  ∧ is_package_part "transformers.models.llama."
  ∧ get_model_name_from_filename
      ("src/transformers/models/llama/" +:+ "modeling_" +:+ "llama" +:+ ".py")
    = get_model_name_from_filename ("modeling_" +:+ "llama")
  ∧ get_model_name_from_filename
      ("transformers.models.llama." +:+ "modeling_" +:+ "llama")
    = get_model_name_from_filename ("modeling_" +:+ "llama")
  ∧ ∃ name, get_model_name_from_filename ("modeling_" +:+ "llama") = Return name.
Proof.
  assert (is_dir_part "src/transformers/models/llama/") as HD
    by (right; exists "src/transformers/models/llama"; reflexivity).
  assert (is_package_part "transformers.models.llama.") as HQ
    by (right; exists "transformers.models.llama"; reflexivity).
  assert (In "modeling_" FILE_TYPE_PREFIXES) as HP
    by (unfold FILE_TYPE_PREFIXES; simpl; tauto).
  split; [exact HD |]. split; [exact HQ |].
  exact (resolver_path_and_import_forms _ _ "modeling_" "llama"
           HP eq_refl eq_refl HD HQ).
Defined.

Lemma resolver_name_rebuilds_token_witness :
  get_model_name_from_filename "src/models/vit/image_processing_vit_fast.py"
  = Return "vit"
  ∧ ∃ P, In P FILE_TYPE_PREFIXES
         ∧ (final_token "src/models/vit/image_processing_vit_fast.py" = P +:+ "vit"
            ∨ (P = "image_processing_"
               ∧ final_token "src/models/vit/image_processing_vit_fast.py"
                 = P +:+ "vit" +:+ "_fast")).
Proof.
  split; [reflexivity |].
  exact (resolver_name_rebuilds_token
           "src/models/vit/image_processing_vit_fast.py" "vit" eq_refl).
Defined.

Lemma resolver_name_is_plain_witness :
  get_model_name_from_filename "transformers.models.data2vec.modeling_data2vec_audio"
  = Return "data2vec_audio"
  ∧ str_contains "." "data2vec_audio" = false
  ∧ str_contains "/" "data2vec_audio" = false.
Proof.
  split; [reflexivity |].
  exact (resolver_name_is_plain
           "transformers.models.data2vec.modeling_data2vec_audio"
           "data2vec_audio" eq_refl).
Defined.

Lemma extracted_module_has_dot_witness :
  "a.modeling_a"
  ∈ extract_imports (Other [ ImportFrom (Some "a.modeling_a") ["AModel"] 2 ])
  ∧ str_contains "." "a.modeling_a" = true.
Proof.
  assert ("a.modeling_a"
          ∈ extract_imports (Other [ ImportFrom (Some "a.modeling_a") ["AModel"] 2 ]))
    as H.
  { apply elem_of_elements. vm_compute. apply list_elem_of_here. }
  split; [exact H | exact (extracted_module_has_dot _ _ H)].
Defined.

Lemma sample_sort : topological_sort elements 3 sample_raw = Return sample_ordered.
Proof. vm_compute. reflexivity. Qed.

Lemma sorted_files_are_distinct_keys_witness :
  topological_sort elements 3 sample_raw = Return sample_ordered
  ∧ NoDup sample_ordered
  ∧ (∀ f, f ∈ sample_ordered → f ∈ sample_raw.*1)
  ∧ (∀ f g a, f ∈ sample_ordered → g ∈ sample_ordered →
       node_name_of f = Return a → node_name_of g = Return a → f = g)
  ∧ (∀ f, f ∈ sample_raw.*1 →
       ∃ g, g ∈ sample_ordered ∧ node_name_of g = node_name_of f).
Proof.
  split; [exact sample_sort |].
  exact (sorted_files_are_distinct_keys elements elements_perm 3 _ _ sample_sort).
Defined.

Lemma independent_files_come_first_witness :
  sample_graph !! "a" = Some ∅
  ∧ sample_graph !! "c" = Some {[ "a"; "b" ]}
  ∧ ∃ fa fb, sample_name_mapping !! "a" = Some fa
             ∧ sample_name_mapping !! "c" = Some fb
             ∧ precedes sample_ordered fa fb.
Proof.
  assert (sample_graph !! "a" = Some ∅) as Ha by (vm_compute; reflexivity).
  assert (sample_graph !! "c" = Some ({[ "a"; "b" ]} : gset string)) as Hc
    by (vm_compute; reflexivity).
  assert (({[ "a"; "b" ]} : gset string) ≠ ∅) as Hne.
  { intros H. apply (f_equal elements) in H. vm_compute in H. discriminate H. }
  split; [exact Ha |]. split; [exact Hc |].
  exact (independent_files_come_first elements elements_perm 3 _ _ _ _ _ _ _ _
           sample_build sample_sort Ha Hc Hne).
Defined.

Lemma filtered_graph_edges_witness :
  NoDup (sample_raw.*1)
  ∧ node_name_of "models/c/modular_c.py" = Return "c"
  ∧ sample_name_mapping !! "c" = Some "models/c/modular_c.py"
  ∧ ∃ deps,
      sample_graph !! "c" = Some deps
      ∧ ∀ b, b ∈ deps ↔
          (b ∈ sample_nodes ∧ b ≠ "c"
           ∧ ∃ m, m ∈ ({[ "a.modeling_a"; "b.modeling_b" ]} : gset string)
                  ∧ get_model_name_from_filename m = Return b).
Proof.
  assert (NoDup (sample_raw.*1)) as Hnd.
  { apply (bool_decide_unpack _). vm_compute. exact I. }
  assert (("models/c/modular_c.py",
           ({[ "a.modeling_a"; "b.modeling_b" ]} : gset string)) ∈ sample_raw)
    as Hin by apply list_elem_of_here.
  assert (∀ g, g ∈ sample_raw.*1 → node_name_of g = Return "c" →
               g = "models/c/modular_c.py") as Huniq.
  { intros g Hg Hname. unfold sample_raw in Hg. csimpl in Hg.
    repeat (apply elem_of_cons in Hg as [-> | Hg]);
      [reflexivity | vm_compute in Hname; discriminate Hname
      | vm_compute in Hname; discriminate Hname |].
    by apply not_elem_of_nil in Hg. }
  split; [exact Hnd |]. split; [reflexivity |].
  exact (filtered_graph_edges elements elements_perm _ _ _ _ _ _ "c"
           sample_build Hnd Hin eq_refl Huniq).
Defined.

Lemma key_without_modular_raises_witness :
  str_contains "modular_" "models/e/modeling_e.py" = false
  ∧ topological_sort elements 0
      [ ("models/e/modeling_e.py", {[ "a.modeling_a" ]}) ]
    = Raise IndexError.
Proof.
  split; [reflexivity |].
  refine (key_without_modular_raises elements elements_perm 0
            [ ("models/e/modeling_e.py", {[ "a.modeling_a" ]}) ]
            "models/e/modeling_e.py" _ eq_refl).
  csimpl. apply list_elem_of_here.
Defined.

Lemma raw_dependency_map_entries_witness :
  map_dependencies elements sample_files sample_py_files = Return sample_raw
  ∧ NoDup (sample_raw.*1)
  ∧ ∀ f D, rawdict_get sample_raw f = Some D ↔
      f ∈ sample_py_files
      ∧ ∃ tree, sample_files f = Some tree ∧ D = extract_imports tree ∧ D ≠ ∅.
Proof.
  split; [exact sample_map |].
  exact (raw_dependency_map_entries elements elements_perm sample_files _ _ sample_map).
Defined.

Lemma unparsable_file_raises_witness :
  sample_files "models/x/modular_x.py" = None
  ∧ find_priority_list elements sample_files 5
      ([ "models/a/modular_a.py" ] ++ "models/x/modular_x.py"
         :: [ "models/b/modular_b.py" ])%list
    = Raise (ParseFailure "models/x/modular_x.py").
Proof.
  split; [reflexivity |].
  refine (unparsable_file_raises elements elements_perm sample_files
            [ "models/a/modular_a.py" ] "models/x/modular_x.py"
            [ "models/b/modular_b.py" ] 5 _ eq_refl).
  intros g Hg. apply list_elem_of_singleton in Hg. rewrite Hg.
  eexists. reflexivity.
Defined.

Lemma path_without_modular_raises_witness :
  str_contains "modular_" "models/e/modeling_e.py" = false
  ∧ find_priority_list elements faulty_files 5
      [ "models/a/modular_a.py"; "models/e/modeling_e.py" ]
    = Raise IndexError.
Proof.
  split; [reflexivity |].
  refine (path_without_modular_raises elements elements_perm faulty_files
            [ "models/a/modular_a.py"; "models/e/modeling_e.py" ]
            "models/e/modeling_e.py" _ 5 _ _ eq_refl _ eq_refl).
  - intros g Hg. repeat (apply elem_of_cons in Hg as [-> | Hg]);
      [eexists; reflexivity .. |].
    by apply not_elem_of_nil in Hg.
  - apply list_elem_of_further, list_elem_of_here.
  - intros H. apply (f_equal elements) in H. vm_compute in H. discriminate H.
Defined.

Lemma unresolvable_import_raises_witness :
  get_model_name_from_filename "transformers.models.auto"
  = Raise (not_a_model_file "transformers.models.auto")
  ∧ ∃ g tree m,
      g ∈ [ "models/e/modular_e.py"; "models/a/modular_a.py" ]
      ∧ faulty_files g = Some tree
      ∧ m ∈ extract_imports tree
      ∧ get_model_name_from_filename m = Raise (not_a_model_file m)
      ∧ ∀ fuel,
          find_priority_list elements faulty_files fuel
            [ "models/e/modular_e.py"; "models/a/modular_a.py" ]
          = Raise (not_a_model_file m).
Proof.
  split; [reflexivity |].
  refine (unresolvable_import_raises elements elements_perm faulty_files
            [ "models/e/modular_e.py"; "models/a/modular_a.py" ]
            "models/e/modular_e.py" _ "transformers.models.auto"
            _ _ _ eq_refl _ eq_refl).
  - intros g Hg. repeat (apply elem_of_cons in Hg as [-> | Hg]);
      [eexists; reflexivity .. |].
    by apply not_elem_of_nil in Hg.
  - intros g Hg. repeat (apply elem_of_cons in Hg as [-> | Hg]);
      [reflexivity .. |].
    by apply not_elem_of_nil in Hg.
  - apply list_elem_of_here.
  - apply elem_of_elements. vm_compute. apply list_elem_of_here.
Defined.

Lemma find_priority_list_permutation_witness :
  NoDup sample_py_files
  ∧ ∃ ordered_files,
      (∀ fuel, (size sample_graph ≤ fuel)%nat →
         find_priority_list elements sample_files fuel sample_py_files
         = Return (ordered_files, sample_raw))
      ∧ ordered_files ≡ₚ sample_py_files.
Proof.
  assert (NoDup sample_py_files) as Hnd.
  { apply (bool_decide_unpack _). vm_compute. exact I. }
  split; [exact Hnd |].
  refine (find_priority_list_permutation elements elements_perm sample_files
            _ _ _ _ _ sample_map sample_build sample_acyclic Hnd _ _).
  - intros f tree Hf Hp H. apply (f_equal elements) in H.
    unfold sample_py_files in Hf.
    repeat (apply elem_of_cons in Hf as [-> | Hf]);
      [vm_compute in Hp; injection Hp as <-; vm_compute in H; discriminate H .. |].
    by apply not_elem_of_nil in Hf.
  - intros f g a Hf Hg Hfa Hga. unfold sample_py_files in Hf, Hg.
    repeat (apply elem_of_cons in Hf as [-> | Hf]);
      [| | | by apply not_elem_of_nil in Hf];
      (repeat (apply elem_of_cons in Hg as [-> | Hg]);
         [| | | by apply not_elem_of_nil in Hg]);
      first [reflexivity | vm_compute in Hfa, Hga; congruence].
Defined.
